(** * Force-directed layout: the layout engine and the metric engine

    A shallow embedding of [ForceDirectedLayout] (algorithms/force-directed-layout.ts):
    [optimizeLayout], [calculateEdgeCrossings], [doEdgesCross],
    [calculateAverageDistance] and [calculateMinimumNodeDistance]; of the
    facade [GraphOptimizer] (app/graph-optimizer.ts): [optimizeGraph],
    [compareLayouts] and [validateCoordinates]; and of the endpoints of the
    lines [GraphVisualizer] draws (visualization/graph-visualizer.ts).

    JavaScript numbers are IEEE 754 binary64 values: the primitive [float]
    of the kernel.  Objects live in a store and arrays hold references, so
    that what the layout engine may and may not write is visible. *)

From Stdlib Require Import ZArith QArith Floats Uint63 Lia Lqa.
From stdpp Require Import base option list gmap strings.

Local Open Scope Z_scope.

(** ** JavaScript numbers *)

Module JS.

(** [Math.max(a, b)]: NaN as soon as one argument is NaN, and [+0] is
    larger than [-0]. *)
Definition Math_max (a b : float) : float :=
  if is_nan a || is_nan b then nan
  else if (a <? b)%float then b
  else if (b <? a)%float then a
  else if get_sign a then b else a.

(** [Math.min(a, b)]: NaN as soon as one argument is NaN, and [-0] is
    smaller than [+0]. *)
Definition Math_min (a b : float) : float :=
  if is_nan a || is_nan b then nan
  else if (a <? b)%float then a
  else if (b <? a)%float then b
  else if get_sign a then a else b.

Definition Math_sqrt (v : float) : float := PrimFloat.sqrt v.

(** [Math.pow(v, 2)], the only exponent the source uses. *)
Definition Math_pow2 (v : float) : float := (v * v)%float.

(** The number held by an integer counter: array lengths stay below
    [2^32], where every integer is a binary64 value. *)
Definition of_nat (n : nat) : float := of_uint63 (Uint63.of_Z (Z.of_nat n)).

(** The value of an integer literal. *)
Definition of_Z (z : Z) : float :=
  if (z <? 0)%Z then (- of_uint63 (Uint63.of_Z (- z)))%float
  else of_uint63 (Uint63.of_Z z).

(** The value of a decimal literal [p/q]: the nearest binary64 value. *)
Definition of_Q (q : Q) : float := (of_Z (Qnum q) / of_Z (Zpos (Qden q)))%float.

End JS.

(** ** The arithmetic [optimizeLayout] needs

    [optimizeLayout] multiplies, divides and clamps.  It is written once over
    this interface and read at two instances: binary64 numbers, which is what
    the program runs on, and exact rationals. *)

Class Number (A : Type) := {
  nmul : A -> A -> A;
  ndiv : A -> A -> A;
  nmax : A -> A -> A;
  nmin : A -> A -> A;
  nlit : Q -> A
}.

#[global] Instance float_number : Number float := {|
  nmul := PrimFloat.mul;
  ndiv := PrimFloat.div;
  nmax := JS.Math_max;
  nmin := JS.Math_min;
  nlit := JS.of_Q
|}.

Definition Qmax_bool (a b : Q) : Q := if Qle_bool a b then b else a.
Definition Qmin_bool (a b : Q) : Q := if Qle_bool a b then a else b.

#[global] Instance exact_number : Number Q := {|
  nmul := Qmult;
  ndiv := Qdiv;
  nmax := Qmax_bool;
  nmin := Qmin_bool;
  nlit := fun q => q
|}.

(** ** Data model *)

(** Modelled from the spec: the interfaces [Node], [Edge] and [GraphData] are
    declared in data/malawi-districts, which is not among the sources; their
    fields are the ones the code reads and the tests build
    ([{ id, x, y }], [{ source, target }], [{ nodes, edges }]). *)
Record Node (A : Type) := mkNode { id : string; x : A; y : A }.
Arguments mkNode {A} _ _ _.
Arguments id {A} _.
Arguments x {A} _.
Arguments y {A} _.

Record Edge := mkEdge { source : string; target : string }.

(** An object is named by its address in the store. *)
Abbreviation addr := nat.

(** [GraphData]: two arrays of references. *)
Record GraphData := mkGraph { nodes : list addr; edges : list addr }.

(** The store: the node-shaped objects and the edge-shaped objects allocated
    so far, each at the index that is its address. *)
Record Heap (A : Type) := mkHeap { node_objs : list (Node A); edge_objs : list Edge }.
Arguments mkHeap {A} _ _.
Arguments node_objs {A} _.
Arguments edge_objs {A} _.

(** [iterations] is a whole number: the loop of [optimizeLayout] runs
    [iterations] times, and not at all when it is negative. *)
Record LayoutOptions (A : Type) := mkOptions {
  width : A;
  height : A;
  iterations : Z;
  alpha : A;
  alphaDecay : A;
  velocityDecay : A;
  chargeStrength : A;
  linkDistance : A;
  linkStrength : A
}.
Arguments mkOptions {A} _ _ _ _ _ _ _ _ _.
Arguments width {A} _.
Arguments height {A} _.
Arguments iterations {A} _.
Arguments alpha {A} _.
Arguments alphaDecay {A} _.
Arguments velocityDecay {A} _.
Arguments chargeStrength {A} _.
Arguments linkDistance {A} _.
Arguments linkStrength {A} _.

(** [Partial<LayoutOptions>]: every field may be absent. *)
Record PartialOptions (A : Type) := mkPartial {
  p_width : option A;
  p_height : option A;
  p_iterations : option Z;
  p_alpha : option A;
  p_alphaDecay : option A;
  p_velocityDecay : option A;
  p_chargeStrength : option A;
  p_linkDistance : option A;
  p_linkStrength : option A
}.
Arguments mkPartial {A} _ _ _ _ _ _ _ _ _.
Arguments p_width {A} _.
Arguments p_height {A} _.
Arguments p_iterations {A} _.
Arguments p_alpha {A} _.
Arguments p_alphaDecay {A} _.
Arguments p_velocityDecay {A} _.
Arguments p_chargeStrength {A} _.
Arguments p_linkDistance {A} _.
Arguments p_linkStrength {A} _.

Definition no_options {A : Type} : PartialOptions A :=
  mkPartial None None None None None None None None None.

(** ** Errors and computations on the store *)

Inductive error :=
  | TypeError                   (* a property read on [undefined] *)
  | EngineError (msg : string). (* an exception raised inside the force engine *)

Inductive outcome (T : Type) :=
  | Returned (v : T)
  | Thrown (e : error).
Arguments Returned {T} _.
Arguments Thrown {T} _.

(** A computation on the store returns or throws, and leaves a store either
    way. *)
Definition Run (A T : Type) : Type := Heap A -> outcome T * Heap A.

Definition ret {A T : Type} (v : T) : Run A T := fun h => (Returned v, h).

Definition throw {A T : Type} (e : error) : Run A T := fun h => (Thrown e, h).

Definition bind {A T U : Type} (m : Run A T) (k : T -> Run A U) : Run A U :=
  fun h =>
    match m h with
    | (Returned v, h') => k v h'
    | (Thrown e, h') => (Thrown e, h')
    end.

Notation "'do' x <- m ; k" := (bind m (fun x => k))
  (at level 10, x name, m at level 100, k at level 200, only parsing).
Notation "'do' ' p <- m ; k" := (bind m (fun x => let 'p := x in k))
  (at level 10, p pattern, m at level 100, k at level 200, only parsing).

(** ** The force engine

    [d3.forceSimulation] and its forces are a library: the program only
    builds the simulation over two arrays it has just allocated, calls
    [tick], and reads the node objects back.  The engine is therefore a
    parameter.  It receives the arrays by reference and may rewrite the
    objects they hold (positions, velocities, link endpoints); its own
    bookkeeping is its private state [simulation]. *)

(** What lines 47-56 hand to the engine besides the two arrays. *)
Record ForceSetup (A : Type) := mkSetup {
  link_distance : A;
  link_strength : A;
  charge_strength : A;
  center_x : A;
  center_y : A;
  collide_radius : A;
  initial_alpha : A;
  alpha_decay : A;
  velocity_decay : A
}.
Arguments mkSetup {A} _ _ _ _ _ _ _ _ _.

Record Engine (A : Type) := mkEngine {
  simulation : Type;
  forceSimulation : ForceSetup A -> list addr -> list addr -> Run A simulation;
  tick : simulation -> list addr -> list addr -> Run A simulation
}.
Arguments simulation {A} _.
Arguments forceSimulation {A} _ _ _ _ _.
Arguments tick {A} _ _ _ _ _.

Section Layout.

Context {A : Type} `{Number A}.

(** [new ForceDirectedLayout(options)]: the defaults, overridden by the
    fields that are present. *)
Definition new_ForceDirectedLayout (options : PartialOptions A) : LayoutOptions A :=
  {| width := default (nlit 800) (p_width options);
     height := default (nlit 600) (p_height options);
     iterations := default 300 (p_iterations options);
     alpha := default (nlit (3 # 10)) (p_alpha options);
     alphaDecay := default (nlit (228 # 10000)) (p_alphaDecay options);
     velocityDecay := default (nlit (4 # 10)) (p_velocityDecay options);
     chargeStrength := default (nlit (-30)) (p_chargeStrength options);
     linkDistance := default (nlit 100) (p_linkDistance options);
     linkStrength := default (nlit 1) (p_linkStrength options) |}.

(** The objects an array refers to in a store, when all its elements are
    objects. *)
Definition read_nodes (h : Heap A) (arr : list addr) : option (list (Node A)) :=
  mapM (fun a => node_objs h !! a) arr.

Definition read_edges (h : Heap A) (arr : list addr) : option (list Edge) :=
  mapM (fun a => edge_objs h !! a) arr.

(** Reading the fields of every element of an array; an element that is not
    an object makes the property read throw. *)
Definition get_nodes (arr : list addr) : Run A (list (Node A)) :=
  fun h =>
    match read_nodes h arr with
    | Some vs => ret vs h
    | None => throw TypeError h
    end.

Definition get_edges (arr : list addr) : Run A (list Edge) :=
  fun h =>
    match read_edges h arr with
    | Some es => ret es h
    | None => throw TypeError h
    end.

(** [arr.map(v => ({ ... }))] allocates one fresh object per element, in
    order, and returns the array of their addresses. *)
Definition alloc_nodes (vs : list (Node A)) : Run A (list addr) :=
  fun h =>
    (Returned (seq (length (node_objs h)) (length vs)),
     mkHeap (node_objs h ++ vs) (edge_objs h)).

Definition alloc_edges (es : list Edge) : Run A (list addr) :=
  fun h =>
    (Returned (seq (length (edge_objs h)) (length es)),
     mkHeap (node_objs h) (edge_objs h ++ es)).

Definition force_setup (options : LayoutOptions A) : ForceSetup A :=
  {| link_distance := linkDistance options;
     link_strength := linkStrength options;
     charge_strength := chargeStrength options;
     center_x := ndiv (width options) (nlit 2);
     center_y := ndiv (height options) (nlit 2);
     collide_radius := nlit 20;
     initial_alpha := alpha options;
     alpha_decay := alphaDecay options;
     velocity_decay := velocityDecay options |}.

(** [for (let i = 0; i < n; i++) simulation.tick()] *)
Fixpoint run_ticks (E : Engine A) (n : nat) (sim : simulation E)
    (sim_nodes links : list addr) : Run A (simulation E) :=
  match n with
  | O => ret sim
  | S n' =>
      do sim' <- tick E sim sim_nodes links;
      run_ticks E n' sim' sim_nodes links
  end.

Definition to_workspace (options : LayoutOptions A) (node : Node A) : Node A :=
  {| id := id node;
     x := nmul (x node) (width options);
     y := nmul (y node) (height options) |}.

Definition to_link (edge : Edge) : Edge :=
  {| source := source edge; target := target edge |}.

Definition clamp01 (v : A) : A := nmax (nlit 0) (nmin (nlit 1) v).

Definition to_unit_square (options : LayoutOptions A) (node : Node A) : Node A :=
  {| id := id node;
     x := clamp01 (ndiv (x node) (width options));
     y := clamp01 (ndiv (y node) (height options)) |}.

(** Lines 36-45: the two arrays built for the engine, [nodes] in the
    workspace and [links]. *)
Definition prepare (options : LayoutOptions A) (graphData : GraphData)
    : Run A (list addr * list addr) :=
  do in_nodes <- get_nodes (nodes graphData);
  do sim_nodes <- alloc_nodes (map (to_workspace options) in_nodes);
  do in_edges <- get_edges (edges graphData);
  do links <- alloc_edges (map to_link in_edges);
  ret (sim_nodes, links).

(** Lines 47-60, all the engine does: the simulation is built over the two
    arrays and ticked [iterations] times. *)
Definition run_engine (E : Engine A) (options : LayoutOptions A)
    (sim_nodes links : list addr) : Run A unit :=
  do sim <- forceSimulation E (force_setup options) sim_nodes links;
  do _ <- run_ticks E (Z.to_nat (iterations options)) sim sim_nodes links;
  ret tt.

(** Lines 36-60: the positions at the end of the simulation. *)
Definition simulate (E : Engine A) (options : LayoutOptions A) (graphData : GraphData)
    : Run A (list (Node A)) :=
  do '(sim_nodes, links) <- prepare options graphData;
  do _ <- run_engine E options sim_nodes links;
  get_nodes sim_nodes.

(** [optimizeLayout(graphData)]: the array of the returned vertices. *)
Definition optimizeLayout (E : Engine A) (options : LayoutOptions A)
    (graphData : GraphData) : Run A (list addr) :=
  do moved <- simulate E options graphData;
  alloc_nodes (map (to_unit_square options) moved).

End Layout.

(** The engine in which every force is switched off: building it registers
    the arrays and a tick leaves every object where it is.  It is the engine
    the concrete runs below use. *)
Definition still_engine (A : Type) : Engine A :=
  {| simulation := unit;
     forceSimulation := fun _ _ _ => ret tt;
     tick := fun sim _ _ => ret sim |}.

(** An engine whose link force looks every endpoint up among the identifiers
    of the node array when it is built, source before target and link after
    link, and raises at the first endpoint that names no node, as the link
    force of d3-force does ("node not found: " followed by the identifier);
    it is still otherwise.  When no tick is made and every position is a
    number, d3 moves no node either. *)
Definition link_resolves {A : Type} (h : Heap A) (sim_nodes : list addr) (k : string) : bool :=
  bool_decide (Exists (fun a => id <$> node_objs h !! a = Some k) sim_nodes).

Fixpoint first_unresolved {A : Type} (h : Heap A) (sim_nodes : list addr)
    (links : list Edge) : option string :=
  match links with
  | [] => None
  | l :: rest =>
      if negb (link_resolves h sim_nodes (source l)) then Some (source l)
      else if negb (link_resolves h sim_nodes (target l)) then Some (target l)
      else first_unresolved h sim_nodes rest
  end.

Definition strict_engine (A : Type) : Engine A :=
  {| simulation := unit;
     forceSimulation := fun _ sim_nodes links h =>
       match first_unresolved h sim_nodes (omap (fun a => edge_objs h !! a) links) with
       | Some k => throw (EngineError ("node not found: " +:+ k)) h
       | None => ret tt h
       end;
     tick := fun sim _ _ => ret sim |}.

(** *** What the program relies on from an engine *)

(** The engine never writes the [id] of a node object, and drops none. *)
Definition keeps_ids {A : Type} (h h' : Heap A) : Prop :=
  forall a, id <$> node_objs h' !! a = id <$> node_objs h !! a.

(** The engine writes only the objects of the two arrays it was given;
    what it allocates is its own. *)
Definition frames {A : Type} (sim_nodes links : list addr) (h h' : Heap A) : Prop :=
  length (node_objs h') = length (node_objs h)
  /\ length (edge_objs h') = length (edge_objs h)
  /\ (forall a, a ∉ sim_nodes -> node_objs h' !! a = node_objs h !! a)
  /\ (forall a, a ∉ links -> edge_objs h' !! a = edge_objs h !! a).

(** A property [P] of the store before and after holds of both operations
    of the engine, whether they return or throw. *)
Definition engine_respects {A : Type} (E : Engine A)
    (P : list addr -> list addr -> Heap A -> Heap A -> Prop) : Prop :=
  (forall setup sim_nodes links h,
      P sim_nodes links h (snd (forceSimulation E setup sim_nodes links h)))
  /\ (forall sim sim_nodes links h,
      P sim_nodes links h (snd (tick E sim sim_nodes links h))).

Definition engine_keeps_ids {A : Type} (E : Engine A) : Prop :=
  engine_respects E (fun _ _ => keeps_ids).

Definition engine_frames {A : Type} (E : Engine A) : Prop :=
  engine_respects E frames.

(** Every link of the array has both endpoints among the identifiers of the
    node array. *)
Definition links_resolve {A : Type} (h : Heap A) (sim_nodes links : list addr) : Prop :=
  forall a l, a ∈ links -> edge_objs h !! a = Some l ->
    link_resolves h sim_nodes (source l) = true
    /\ link_resolves h sim_nodes (target l) = true.

(** Building the engine over resolvable links returns, and moves no node.
    (Of d3 this holds where no position is NaN: it replaces NaN positions
    when it is built.) *)
Definition engine_settles {A : Type} (E : Engine A) : Prop :=
  forall setup sim_nodes links h,
    links_resolve h sim_nodes links ->
    exists sim h',
      forceSimulation E setup sim_nodes links h = (Returned sim, h')
      /\ node_objs h' = node_objs h.

(** The store [h'] holds every object of [h], unchanged. *)
Definition keeps_objects {A : Type} (h h' : Heap A) : Prop :=
  (forall a v, node_objs h !! a = Some v -> node_objs h' !! a = Some v)
  /\ (forall a e, edge_objs h !! a = Some e -> edge_objs h' !! a = Some e).

(** [GraphOptimizer.validateCoordinates] (app/graph-optimizer.ts). *)
Definition validateCoordinates (nodes : list (Node float)) : bool :=
  forallb (fun node =>
             (0 <=? x node)%float && (x node <=? 1)%float
             && (0 <=? y node)%float && (y node <=? 1)%float) nodes.

(** ** The metric engine

    The three metrics read an array of vertices and an array of edges and
    write nothing: they take the objects by value.  Numbers are binary64. *)

Abbreviation point := (Node float).

Section Metrics.

Local Open Scope float_scope.

(** [new Map(nodes.map(node => [node.id, node]))]: entries are set in
    array order, so the last vertex with a given identifier wins. *)
Definition nodeMap_of (nodes : list point) : gmap string point :=
  fold_left (fun m node => <[id node := node]> m) nodes ∅.

(** The four orientation determinants of [doEdgesCross]. *)
Definition det1 (node1 node2 node3 node4 : point) : float :=
  (x node1 - x node3) * (y node4 - y node3) - (y node1 - y node3) * (x node4 - x node3).
Definition det2 (node1 node2 node3 node4 : point) : float :=
  (x node2 - x node3) * (y node4 - y node3) - (y node2 - y node3) * (x node4 - x node3).
Definition det3 (node1 node2 node3 node4 : point) : float :=
  (x node3 - x node1) * (y node2 - y node1) - (y node3 - y node1) * (x node2 - x node1).
Definition det4 (node1 node2 node3 node4 : point) : float :=
  (x node4 - x node1) * (y node2 - y node1) - (y node4 - y node1) * (x node2 - x node1).

Definition share_endpoint (node1 node2 node3 node4 : point) : bool :=
  String.eqb (id node1) (id node3) || String.eqb (id node1) (id node4)
  || String.eqb (id node2) (id node3) || String.eqb (id node2) (id node4).

Definition doEdgesCross (node1 node2 node3 node4 : point) : bool :=
  if share_endpoint node1 node2 node3 node4 then false
  else
    (det1 node1 node2 node3 node4 * det2 node1 node2 node3 node4 <? 0)
    && (det3 node1 node2 node3 node4 * det4 node1 node2 node3 node4 <? 0).

(** The body of the inner loop of [calculateEdgeCrossings] without the
    counter: does the pair [(edge1, edge2)] add a crossing? *)
Definition crosses (nodeMap : gmap string point) (edge1 edge2 : Edge) : bool :=
  match nodeMap !! source edge1, nodeMap !! target edge1,
        nodeMap !! source edge2, nodeMap !! target edge2 with
  | Some node1, Some node2, Some node3, Some node4 =>
      doEdgesCross node1 node2 node3 node4
  | _, _, _, _ => false
  end.

(** One turn of the inner loop at indices [i], [j].  The loop bounds keep
    both indices inside the array. *)
Definition crossings_step (nodeMap : gmap string point) (edges : list Edge)
    (i j : nat) (crossings : nat) : nat :=
  match edges !! i, edges !! j with
  | Some edge1, Some edge2 =>
      if crosses nodeMap edge1 edge2 then S crossings else crossings
  | _, _ => crossings
  end.

(** [for (j = i + 1; j < n; j++)] *)
Definition inner_range (n i : nat) : list nat := seq (S i) (n - S i).

Definition calculateEdgeCrossings (nodes : list point) (edges : list Edge) : nat :=
  let nodeMap := nodeMap_of nodes in
  fold_left
    (fun crossings i =>
       fold_left (fun crossings j => crossings_step nodeMap edges i j crossings)
                 (inner_range (length edges) i) crossings)
    (seq 0 (length edges)) O.

Definition distance (a b : point) : float :=
  JS.Math_sqrt (JS.Math_pow2 (x a - x b) + JS.Math_pow2 (y a - y b)).

(** One turn of the loop of [calculateAverageDistance] on the pair
    [(totalDistance, edgeCount)]. *)
Definition average_step (nodeMap : gmap string point) (acc : float * nat) (edge : Edge)
    : float * nat :=
  match nodeMap !! source edge, nodeMap !! target edge with
  | Some s, Some t => (fst acc + distance s t, S (snd acc))
  | _, _ => acc
  end.

Definition calculateAverageDistance (nodes : list point) (edges : list Edge) : float :=
  let nodeMap := nodeMap_of nodes in
  let '(totalDistance, edgeCount) := fold_left (average_step nodeMap) edges (0, O) in
  if (0 <? edgeCount)%nat then totalDistance / JS.of_nat edgeCount else 0.

Definition minimum_step (nodes : list point) (i j : nat) (minDistance : float) : float :=
  match nodes !! i, nodes !! j with
  | Some a, Some b => JS.Math_min minDistance (distance a b)
  | _, _ => minDistance
  end.

Definition calculateMinimumNodeDistance (nodes : list point) : float :=
  fold_left
    (fun minDistance i =>
       fold_left (fun minDistance j => minimum_step nodes i j minDistance)
                 (inner_range (length nodes) i) minDistance)
    (seq 0 (length nodes)) infinity.

(** *** What the specification says the metrics are *)

(** Every unordered pair of distinct indices below [n], as [(i, j)] with
    [i < j]. *)
Definition index_pairs (n : nat) : list (nat * nat) :=
  flat_map (fun i => map (pair i) (inner_range n i)) (seq 0 n).

(** The edges whose two endpoints are identifiers of vertices, with the
    vertices they resolve to. *)
Definition resolvable_edges (nodes : list point) (edges : list Edge) : list (point * point) :=
  omap (fun e =>
          match nodeMap_of nodes !! source e, nodeMap_of nodes !! target e with
          | Some s, Some t => Some (s, t)
          | _, _ => None
          end) edges.



(** The distances of all pairs of distinct vertices. *)
Definition pair_distances (nodes : list point) : list float :=
  omap (fun ij => match nodes !! fst ij, nodes !! snd ij with
                  | Some a, Some b => Some (distance a b)
                  | _, _ => None
                  end) (index_pairs (length nodes)).

(** [v] is a least element of [ds] for the order of binary64 numbers. *)
Definition is_minimum_of (v : float) (ds : list float) : Prop :=
  v ∈ ds ∧ ∀ d, d ∈ ds → (v <=? d) = true.

End Metrics.


(** ** Classes of binary64 numbers used in the proofs *)

(** [+0], [-0] or NaN: what a difference [a - a] can be. *)
Definition zero_or_nan (f : float) : Prop :=
  match Prim2SF f with S754_zero _ | S754_nan => True | _ => False end.

(** A number that is not NaN and carries the sign [s]. *)
Definition signed_as (s : bool) (f : spec_float) : Prop :=
  match f with
  | S754_zero s' | S754_infinity s' | S754_finite s' _ _ => s' = s
  | S754_nan => False
  end.

(** Neither NaN nor an infinity. *)
Definition finite_spec (f : spec_float) : Prop :=
  match f with S754_zero _ | S754_finite _ _ _ => True | _ => False end.

(** A coordinate in the unit interval, as [validateCoordinates] tests it. *)
Definition in_unit_interval (c : float) : bool := ((0 <=? c) && (c <=? 1))%float.

(** Two edges that name a common endpoint. *)
Definition share_endpoint_id (e1 e2 : Edge) : Prop :=
  source e1 = source e2 \/ source e1 = target e2
  \/ target e1 = source e2 \/ target e1 = target e2.

(** Do the edges at indices [i] and [j] add a crossing? *)
Definition crossing_pair (nodes : list point) (edges : list Edge) (ij : nat * nat) : bool :=
  match edges !! fst ij, edges !! snd ij with
  | Some edge1, Some edge2 => crosses (nodeMap_of nodes) edge1 edge2
  | _, _ => false
  end.

(** ** Concrete stores, graphs and configurations *)

Definition two_vertices : Heap float :=
  mkHeap [mkNode "A" (JS.of_Q (1 # 2)) (JS.of_Q (1 # 2));
          mkNode "B" (JS.of_Q (1 # 4)) (JS.of_Q (3 # 4))]
         [mkEdge "A" "B"; mkEdge "A" "Z"].

(** Both vertices and the edge A-B. *)
Definition sound_graph : GraphData := mkGraph [0%nat; 1%nat] [0%nat].

(** Both vertices, the edge A-B and the edge A-Z, whose target names no vertex. *)
Definition dangling_graph : GraphData := mkGraph [0%nat; 1%nat] [0%nat; 1%nat].

(** [{ width: 0, iterations: 0 }] *)
Definition zero_width : PartialOptions float :=
  mkPartial (Some (JS.of_Z 0)) None (Some 0) None None None None None None.

(** [{ iterations: 0 }] *)
Definition no_iteration {A : Type} : PartialOptions A :=
  mkPartial None None (Some 0) None None None None None None.

(** Two vertices inside the unit square, one outside it on both axes, and
    the edge A-B. *)
Definition three_vertices_exact : Heap Q :=
  mkHeap [mkNode "A" (1 # 2) (1 # 2); mkNode "B" (1 # 4) (3 # 4);
          mkNode "C" (3 # 2) ((-1) # 2)]
         [mkEdge "A" "B"].

Definition three_graph : GraphData := mkGraph [0%nat; 1%nat; 2%nat] [0%nat].

(** The corners of the unit square, in the order of the tests. *)
Definition unit_square : list point :=
  [mkNode "A" 0%float 0%float; mkNode "B" 1%float 1%float;
   mkNode "C" 0%float 1%float; mkNode "D" 1%float 0%float].

(** The two diagonals of the unit square. *)
Definition diagonals : list Edge := [mkEdge "A" "B"; mkEdge "C" "D"].

(** The two legs of [right_angle] and an edge to a vertex that does not exist. *)
Definition sides_and_stray : list Edge :=
  [mkEdge "A" "B"; mkEdge "A" "C"; mkEdge "A" "Q"].

Definition right_angle : list point :=
  [mkNode "A" 0%float 0%float; mkNode "B" 1%float 0%float; mkNode "C" 0%float 1%float].

(** Three vertices at integer distances 5 and 13 from the first, and the
    edges from the first to the two others and to a vertex that does not
    exist. *)
Definition pythagorean_vertices : list point :=
  [mkNode "A" 0%float 0%float; mkNode "B" 3%float 4%float; mkNode "C" 5%float 12%float].


(** ** The optimizer facade (app/graph-optimizer.ts) *)

(** The [metrics] object of an [OptimizationResult].  The two counts are
    integers, the four distances binary64 numbers. *)
Record Metrics := mkMetrics {
  originalCrossings : nat;
  optimizedCrossings : nat;
  originalAverageDistance : float;
  optimizedAverageDistance : float;
  originalMinDistance : float;
  optimizedMinDistance : float
}.

(** [OptimizationResult]: three arrays of references and the metrics.  The
    field [edges] of the source is [result_edges] here, [edges] being the
    field of [GraphData]. *)
Record OptimizationResult := mkResult {
  originalNodes : list addr;
  optimizedNodes : list addr;
  result_edges : list addr;
  metrics : Metrics
}.

(** [GraphOptimizer.optimizeGraph], with [this.layout] built from [options].
    The metrics read the objects of the arrays they are given and write
    nothing.  The first metric reads every vertex and the second every edge
    before [optimizeLayout] is called, so the objects are read up front; the
    spreads [[...graphData.nodes]] and [[...graphData.edges]] are new arrays
    of the same references. *)
Definition optimizeGraph (E : Engine float) (options : LayoutOptions float)
    (graphData : GraphData) : Run float OptimizationResult :=
  do in_nodes <- get_nodes (nodes graphData);
  do in_edges <- get_edges (edges graphData);
  let originalCrossings := calculateEdgeCrossings in_nodes in_edges in
  let originalAverageDistance := calculateAverageDistance in_nodes in_edges in
  let originalMinDistance := calculateMinimumNodeDistance in_nodes in
  do optimizedNodes <- optimizeLayout E options graphData;
  do out_nodes <- get_nodes optimizedNodes;
  do out_edges <- get_edges (edges graphData);
  let optimizedCrossings := calculateEdgeCrossings out_nodes out_edges in
  let optimizedAverageDistance := calculateAverageDistance out_nodes out_edges in
  let optimizedMinDistance := calculateMinimumNodeDistance out_nodes in
  ret (mkResult (nodes graphData) optimizedNodes (edges graphData)
         (mkMetrics originalCrossings optimizedCrossings
                    originalAverageDistance optimizedAverageDistance
                    originalMinDistance optimizedMinDistance)).

(** What [compareLayouts] returns.  A difference of two counts is an integer
    of either sign. *)
Record Comparison := mkComparison {
  crossingReduction : Z;
  distanceImprovement : float;
  minDistanceImprovement : float
}.

(** [GraphOptimizer.compareLayouts]. *)
Definition compareLayouts (originalNodes optimizedNodes : list point) (edges : list Edge)
    : Comparison :=
  let originalCrossings := calculateEdgeCrossings originalNodes edges in
  let optimizedCrossings := calculateEdgeCrossings optimizedNodes edges in
  let originalAvgDistance := calculateAverageDistance originalNodes edges in
  let optimizedAvgDistance := calculateAverageDistance optimizedNodes edges in
  let originalMinDistance := calculateMinimumNodeDistance originalNodes in
  let optimizedMinDistance := calculateMinimumNodeDistance optimizedNodes in
  mkComparison (Z.of_nat originalCrossings - Z.of_nat optimizedCrossings)
               (optimizedAvgDistance - originalAvgDistance)%float
               (optimizedMinDistance - originalMinDistance)%float.

(** ** Edge endpoints in the renderer (visualization/graph-visualizer.ts) *)

(** [nodes.find(n => n.id === k)]: the first vertex with the identifier. *)
Definition find_node (nodes : list point) (k : string) : option point :=
  List.find (fun n => String.eqb (id n) k) nodes.

Section Lines.

(** The two [d3.scaleLinear] scales of [render] and [update]. *)
Variables (xScale yScale : float -> float).

(** The four attributes of the [line] drawn for the edge [d]. *)
Definition line_x1 (nodes : list point) (d : Edge) : float :=
  match find_node nodes (source d) with
  | Some sourceNode => xScale (x sourceNode)
  | None => 0%float
  end.

Definition line_y1 (nodes : list point) (d : Edge) : float :=
  match find_node nodes (source d) with
  | Some sourceNode => yScale (y sourceNode)
  | None => 0%float
  end.

Definition line_x2 (nodes : list point) (d : Edge) : float :=
  match find_node nodes (target d) with
  | Some targetNode => xScale (x targetNode)
  | None => 0%float
  end.

Definition line_y2 (nodes : list point) (d : Edge) : float :=
  match find_node nodes (target d) with
  | Some targetNode => yScale (y targetNode)
  | None => 0%float
  end.

End Lines.

(** ** Notions used to state properties of the metrics *)

(** The crossings of a list of edges by recursion on the list: those of the
    first edge with each later one, and those among the later ones. *)
Fixpoint crossings_of (nodeMap : gmap string point) (edges : list Edge) : nat :=
  match edges with
  | [] => O
  | edge1 :: rest =>
      (length (List.filter (crosses nodeMap edge1) rest) + crossings_of nodeMap rest)%nat
  end.

(** Both endpoints of the edge are keys of the map. *)
Definition resolves (nodeMap : gmap string point) (e : Edge) : bool :=
  match nodeMap !! source e, nodeMap !! target e with
  | Some _, Some _ => true
  | _, _ => false
  end.

(** The edge in the other direction. *)
Definition flip_edge (e : Edge) : Edge := mkEdge (target e) (source e).

(** NaN, or a number whose sign bit is clear: [+0], a positive number or
    [+Infinity]. *)
Definition nonneg_or_nan (f : spec_float) : Prop :=
  match f with S754_nan => True | _ => signed_as false f end.

(** Equal up to the sign. *)
Definition mirror (a b : spec_float) : Prop := b = a \/ b = SFopp a.

(** ** The crossing test in exact arithmetic *)

Section ExactCrossingTest.

Local Open Scope Q_scope.

(** [a < b] on exact numbers. *)
Definition Qlt_bool (a b : Q) : bool := negb (Qle_bool b a).

(** [doEdgesCross] read over exact rationals: the same test on the
    identifiers, the same four determinants and the same two sign tests,
    without rounding. *)
Definition doEdgesCross_exact (node1 node2 node3 node4 : Node Q) : bool :=
  if String.eqb (id node1) (id node3) || String.eqb (id node1) (id node4)
     || String.eqb (id node2) (id node3) || String.eqb (id node2) (id node4)
  then false
  else
    let x1 := x node1 in let y1 := y node1 in
    let x2 := x node2 in let y2 := y node2 in
    let x3 := x node3 in let y3 := y node3 in
    let x4 := x node4 in let y4 := y node4 in
    let det1 := (x1 - x3) * (y4 - y3) - (y1 - y3) * (x4 - x3) in
    let det2 := (x2 - x3) * (y4 - y3) - (y2 - y3) * (x4 - x3) in
    let det3 := (x3 - x1) * (y2 - y1) - (y3 - y1) * (x2 - x1) in
    let det4 := (x4 - x1) * (y2 - y1) - (y4 - y1) * (x2 - x1) in
    Qlt_bool (det1 * det2) 0 && Qlt_bool (det3 * det4) 0.


End ExactCrossingTest.

(** * Proofs *)

(** ** The order of binary64 numbers *)

Section FloatOrder.

Local Open Scope float_scope.

Lemma SFcompare_refl (a : spec_float) : a <> S754_nan -> SFcompare a a = Some Eq.
Proof.
  destruct a as [s|s| |s m e]; intros Ha; try congruence; try (destruct s; reflexivity).
  simpl. rewrite Z.compare_refl.
  change (Pos.compare_cont Eq m m) with (m ?= m)%positive.
  rewrite Pos.compare_refl. destruct s; reflexivity.
Qed.

Lemma SFcompare_antisym (a b : spec_float) :
  SFcompare b a = CompOpp <$> SFcompare a b.
Proof.
  destruct a as [s1|s1| |s1 m1 e1], b as [s2|s2| |s2 m2 e2];
    try reflexivity; try (destruct s1; reflexivity); try (destruct s2; reflexivity);
    try (destruct s1, s2; reflexivity).
  simpl. rewrite (Z.compare_antisym e1 e2).
  change (Pos.compare_cont Eq m2 m1) with (m2 ?= m1)%positive.
  change (Pos.compare_cont Eq m1 m2) with (m1 ?= m2)%positive.
  rewrite (Pos.compare_antisym m1 m2).
  destruct s1, s2; simpl; try reflexivity;
    destruct (e1 ?= e2)%Z; simpl; try reflexivity;
    destruct (m1 ?= m2)%positive; reflexivity.
Qed.

Lemma SFleb_trans (a b c : spec_float) :
  SFleb a b = true -> SFleb b c = true -> SFleb a c = true.
Proof.
  unfold SFleb.
  destruct a as [s1|s1| |s1 m1 e1], b as [s2|s2| |s2 m2 e2], c as [s3|s3| |s3 m3 e3];
    simpl; try (intros; congruence);
    try (destruct s1; simpl; intros; congruence);
    try (destruct s2; simpl; intros; congruence);
    try (destruct s3; simpl; intros; congruence);
    try (destruct s1, s2; simpl; intros; congruence);
    try (destruct s1, s3; simpl; intros; congruence);
    try (destruct s2, s3; simpl; intros; congruence);
    try (destruct s1, s2, s3; simpl; intros; congruence).
  change (Pos.compare_cont Eq m1 m2) with (m1 ?= m2)%positive.
  change (Pos.compare_cont Eq m2 m3) with (m2 ?= m3)%positive.
  change (Pos.compare_cont Eq m1 m3) with (m1 ?= m3)%positive.
  destruct s1, s2, s3; simpl; try (intros; congruence);
    intros H1 H2;
    destruct (Z.compare_spec e1 e2), (Pos.compare_spec m1 m2);
    simpl in H1; try discriminate;
    destruct (Z.compare_spec e2 e3), (Pos.compare_spec m2 m3);
    simpl in H2; try discriminate;
    destruct (Z.compare_spec e1 e3), (Pos.compare_spec m1 m3);
    simpl; try reflexivity; lia.
Qed.

Lemma is_nan_spec (f : float) : is_nan f = true <-> Prim2SF f = S754_nan.
Proof.
  unfold is_nan. rewrite FloatAxioms.eqb_spec. unfold SFeqb.
  destruct (Prim2SF f) as [s|s| |s m e] eqn:E.
  1,2,4: rewrite SFcompare_refl by discriminate; simpl; split; discriminate.
  simpl. split; reflexivity.
Qed.

Lemma is_nan_false (f : float) : is_nan f = false <-> Prim2SF f <> S754_nan.
Proof.
  pose proof (is_nan_spec f) as [H1 H2].
  destruct (is_nan f); split; intros; try congruence.
  - exfalso. auto.
  - intros E. apply H2 in E. discriminate.
Qed.

Lemma leb_refl (a : float) : is_nan a = false -> (a <=? a) = true.
Proof.
  intros Ha. apply is_nan_false in Ha. rewrite FloatAxioms.leb_spec. unfold SFleb.
  rewrite SFcompare_refl by assumption. reflexivity.
Qed.

Lemma leb_trans (a b c : float) :
  (a <=? b) = true -> (b <=? c) = true -> (a <=? c) = true.
Proof. rewrite !FloatAxioms.leb_spec. apply SFleb_trans. Qed.

Lemma ltb_leb (a b : float) : (a <? b) = true -> (a <=? b) = true.
Proof.
  rewrite FloatAxioms.ltb_spec, FloatAxioms.leb_spec. unfold SFltb, SFleb.
  destruct (SFcompare (Prim2SF a) (Prim2SF b)) as [[ | | ]|]; congruence.
Qed.

Lemma not_ltb_leb (a b : float) :
  is_nan a = false -> is_nan b = false -> (a <? b) = false -> (b <=? a) = true.
Proof.
  intros Ha Hb. apply is_nan_false in Ha, Hb.
  rewrite FloatAxioms.ltb_spec, FloatAxioms.leb_spec. unfold SFltb, SFleb.
  rewrite (SFcompare_antisym (Prim2SF a) (Prim2SF b)).
  destruct (Prim2SF a) as [s1|s1| |s1 m1 e1]; try congruence;
    destruct (Prim2SF b) as [s2|s2| |s2 m2 e2]; try congruence;
    match goal with
    | |- context [SFcompare ?u ?v] => destruct (SFcompare u v) as [[ | | ]|] eqn:E
    end; simpl; try congruence;
    simpl in E; try destruct s1; try destruct s2; discriminate.
Qed.

Lemma leb_not_nan (a b : float) : (a <=? b) = true -> is_nan a = false /\ is_nan b = false.
Proof.
  rewrite FloatAxioms.leb_spec, !is_nan_false. unfold SFleb.
  destruct (Prim2SF a), (Prim2SF b); simpl; intros; split; congruence.
Qed.

Lemma Math_min_nan (a b : float) :
  is_nan a = true \/ is_nan b = true -> JS.Math_min a b = nan.
Proof.
  unfold JS.Math_min. intros [-> | ->]; [reflexivity|].
  rewrite orb_true_r. reflexivity.
Qed.

Lemma Math_max_nan (a b : float) :
  is_nan a = true \/ is_nan b = true -> JS.Math_max a b = nan.
Proof.
  unfold JS.Math_max. intros [-> | ->]; [reflexivity|].
  rewrite orb_true_r. reflexivity.
Qed.

Lemma Math_min_cases (a b : float) :
  is_nan a = false -> is_nan b = false ->
  (JS.Math_min a b = a \/ JS.Math_min a b = b)
  /\ (JS.Math_min a b <=? a) = true /\ (JS.Math_min a b <=? b) = true.
Proof.
  intros Ha Hb. unfold JS.Math_min. rewrite Ha, Hb. simpl.
  destruct (a <? b) eqn:Hab.
  { split; [left; reflexivity|]. split; [apply leb_refl | apply ltb_leb]; assumption. }
  destruct (b <? a) eqn:Hba.
  { split; [right; reflexivity|]. split; [apply ltb_leb | apply leb_refl]; assumption. }
  pose proof (not_ltb_leb a b Ha Hb Hab). pose proof (not_ltb_leb b a Hb Ha Hba).
  destruct (get_sign a); (split; [auto|]); split; auto using leb_refl.
Qed.

Lemma Math_max_cases (a b : float) :
  is_nan a = false -> is_nan b = false ->
  (JS.Math_max a b = a \/ JS.Math_max a b = b)
  /\ (a <=? JS.Math_max a b) = true /\ (b <=? JS.Math_max a b) = true.
Proof.
  intros Ha Hb. unfold JS.Math_max. rewrite Ha, Hb. simpl.
  destruct (a <? b) eqn:Hab.
  { split; [right; reflexivity|]. split; [apply ltb_leb | apply leb_refl]; assumption. }
  destruct (b <? a) eqn:Hba.
  { split; [left; reflexivity|]. split; [apply leb_refl | apply ltb_leb]; assumption. }
  pose proof (not_ltb_leb a b Ha Hb Hab). pose proof (not_ltb_leb b a Hb Ha Hba).
  destruct (get_sign a); (split; [auto|]); split; auto using leb_refl.
Qed.

Lemma clamp01_nan (v : float) : is_nan v = true -> clamp01 v = nan.
Proof.
  intros Hv. unfold clamp01. simpl.
  rewrite (Math_min_nan _ v) by (right; assumption).
  apply Math_max_nan. right. reflexivity.
Qed.

Lemma clamp01_unit (v : float) :
  is_nan v = false -> (0 <=? clamp01 v) = true /\ (clamp01 v <=? 1) = true.
Proof.
  intros Hv. unfold clamp01. simpl.
  change (JS.of_Q 0) with 0. change (JS.of_Q 1) with 1.
  destruct (Math_min_cases 1 v eq_refl Hv) as (Hm & Hm1 & Hmv).
  assert (Hn : is_nan (JS.Math_min 1 v) = false) by (destruct Hm as [-> | ->]; auto).
  destruct (Math_max_cases 0 (JS.Math_min 1 v) eq_refl Hn) as (Hc & Hc0 & Hcm).
  split; [assumption|].
  destruct Hc as [-> | ->]; [reflexivity | assumption].
Qed.

End FloatOrder.

(** ** Zero and NaN *)

Section FloatZero.
Local Open Scope float_scope.

Lemma mul_comm (a b : float) : a * b = b * a.
Proof.
  apply Prim2SF_inj. rewrite !FloatAxioms.mul_spec. unfold SF64mul.
  destruct (Prim2SF a) as [s1|s1| |s1 m1 e1], (Prim2SF b) as [s2|s2| |s2 m2 e2];
    simpl; try reflexivity; try (rewrite (xorb_comm s1 s2); reflexivity).
  rewrite (xorb_comm s1 s2), (Pos.mul_comm m1 m2), (Z.add_comm e1 e2). reflexivity.
Qed.

Lemma sub_diag (a : float) : zero_or_nan (a - a).
Proof.
  unfold zero_or_nan. rewrite FloatAxioms.sub_spec. unfold SF64sub, SFsub.
  destruct (Prim2SF a) as [s|s| |s m e]; try (destruct s; exact I); try exact I.
  cbv zeta. rewrite Z.sub_diag. exact I.
Qed.

Lemma mul_zero_or_nan_l (z a : float) : zero_or_nan z -> zero_or_nan (z * a).
Proof.
  unfold zero_or_nan. rewrite FloatAxioms.mul_spec. unfold SF64mul, SFmul.
  destruct (Prim2SF z) as [s|s| |s m e]; try contradiction;
    destruct (Prim2SF a) as [s2|s2| |s2 m2 e2]; intros _; exact I.
Qed.

Lemma mul_zero_or_nan_r (a z : float) : zero_or_nan z -> zero_or_nan (a * z).
Proof. rewrite mul_comm. apply mul_zero_or_nan_l. Qed.

Lemma sub_zero_or_nan (z1 z2 : float) :
  zero_or_nan z1 -> zero_or_nan z2 -> zero_or_nan (z1 - z2).
Proof.
  unfold zero_or_nan. rewrite FloatAxioms.sub_spec. unfold SF64sub, SFsub.
  destruct (Prim2SF z1) as [s|s| |s m e]; try contradiction;
    destruct (Prim2SF z2) as [s2|s2| |s2 m2 e2]; try contradiction; intros _ _;
    try exact I; destruct s, s2; exact I.
Qed.

Lemma zero_or_nan_not_negative (z : float) : zero_or_nan z -> (z <? 0) = false.
Proof.
  unfold zero_or_nan. rewrite FloatAxioms.ltb_spec. unfold SFltb.
  destruct (Prim2SF z) as [s|s| |s m e]; try contradiction; intros _; reflexivity.
Qed.

Lemma zero_or_nan_not_positive (z : float) : zero_or_nan z -> (0 <? z) = false.
Proof.
  unfold zero_or_nan. rewrite FloatAxioms.ltb_spec. unfold SFltb.
  destruct (Prim2SF z) as [s|s| |s m e]; try contradiction; intros _; reflexivity.
Qed.


End FloatZero.

(** ** Rounding never makes a NaN *)

Section Rounding.

Variables prec emax : Z.

Lemma shr_1_nonneg (r : shr_record) : 0 <= shr_m r -> 0 <= shr_m (shr_1 r).
Proof.
  destruct r as [m r s]. simpl. destruct m as [|[p|p|]|[p|p|]]; simpl; lia.
Qed.

Lemma iter_shr_1_nonneg (p : positive) (r : shr_record) :
  0 <= shr_m r -> 0 <= shr_m (SpecFloat.iter_pos shr_1 p r).
Proof.
  revert r. induction p as [p IH|p IH|]; intros r Hr; simpl.
  - apply IH, IH, shr_1_nonneg, Hr.
  - apply IH, IH, Hr.
  - apply shr_1_nonneg, Hr.
Qed.

Lemma shr_fexp_nonneg (m e : Z) (l : location) :
  0 <= m -> 0 <= shr_m (fst (shr_fexp prec emax m e l)).
Proof.
  intros Hm. unfold shr_fexp, shr.
  assert (H0 : 0 <= shr_m (shr_record_of_loc m l)) by (destruct l as [|[]]; exact Hm).
  destruct (fexp prec emax (Zdigits2 m + e) - e) as [|p|p]; simpl; auto.
  apply iter_shr_1_nonneg, H0.
Qed.

Lemma round_nearest_even_nonneg (m : Z) (l : location) :
  0 <= m -> 0 <= round_nearest_even m l.
Proof.
  intros Hm. destruct l as [|[]]; simpl; try lia. destruct (Z.even m); lia.
Qed.

Lemma binary_round_aux_signed (sx : bool) (mx ex : Z) (lx : location) :
  0 <= mx -> signed_as sx (binary_round_aux prec emax sx mx ex lx).
Proof.
  intros Hm. unfold binary_round_aux.
  pose proof (shr_fexp_nonneg mx ex lx Hm) as H1.
  destruct (shr_fexp prec emax mx ex lx) as [mrs' e']. simpl in H1.
  pose proof (shr_fexp_nonneg _ e' loc_Exact
                (round_nearest_even_nonneg _ (loc_of_shr_record mrs') H1)) as H2.
  destruct (shr_fexp prec emax (round_nearest_even (shr_m mrs') (loc_of_shr_record mrs'))
              e' loc_Exact) as [mrs'' e'']. simpl in H2.
  destruct (shr_m mrs'') as [|p|p]; [reflexivity| |lia].
  destruct (e'' <=? emax - prec); reflexivity.
Qed.

Lemma binary_round_signed (sx : bool) (mx : positive) (ex : Z) :
  signed_as sx (binary_round prec emax sx mx ex).
Proof.
  unfold binary_round.
  destruct (shl_align mx ex (fexp prec emax (Z.pos (digits2_pos mx) + ex))) as [mz ez].
  apply binary_round_aux_signed. lia.
Qed.

Lemma binary_normalize_not_nan (m e : Z) (szero : bool) :
  binary_normalize prec emax m e szero <> S754_nan.
Proof.
  destruct m as [|p|p]; simpl; [discriminate| |];
    match goal with |- binary_round _ _ ?s ?p ?e <> _ =>
      pose proof (binary_round_signed s p e) as Hs;
      destruct (binary_round prec emax s p e); [discriminate|discriminate|contradiction|discriminate]
    end.
Qed.

Lemma SFsub_finite (a b : spec_float) :
  finite_spec a -> finite_spec b -> SFsub prec emax a b <> S754_nan.
Proof.
  destruct a as [s1|s1| |s1 m1 e1]; try contradiction;
    destruct b as [s2|s2| |s2 m2 e2]; try contradiction; intros _ _; simpl;
    try discriminate; try (destruct s1, s2; discriminate).
  apply binary_normalize_not_nan.
Qed.

Lemma SFmul_square (a : spec_float) :
  a <> S754_nan -> signed_as false (SFmul prec emax a a).
Proof.
  destruct a as [s|s| |s m e]; intros Ha; try congruence; simpl;
    try (destruct s; reflexivity).
  replace (xorb s s) with false by (destruct s; reflexivity).
  apply binary_round_aux_signed. lia.
Qed.

Lemma SFadd_nonneg (a b : spec_float) :
  signed_as false a -> signed_as false b -> signed_as false (SFadd prec emax a b).
Proof.
  destruct a as [s1|s1| |s1 m1 e1]; try contradiction;
    destruct b as [s2|s2| |s2 m2 e2]; try contradiction; simpl; intros -> ->;
    try reflexivity.
  unfold cond_Zopp, binary_normalize.
  match goal with |- context [Z.pos ?p + Z.pos ?q] =>
    change (Z.pos p + Z.pos q) with (Z.pos (p + q)) end.
  apply binary_round_signed.
Qed.

Lemma sqrtrem_nonneg (m : Z) : 0 <= fst (Z.sqrtrem m).
Proof.
  destruct m as [|p|p]; simpl; try lia.
  destruct (Pos.sqrtrem p) as [s [|r|]]; simpl; lia.
Qed.

Lemma SFsqrt_nonneg (a : spec_float) :
  signed_as false a -> signed_as false (SFsqrt prec emax a).
Proof.
  destruct a as [s|s| |s m e]; try contradiction; simpl; intros ->; try reflexivity.
  unfold SFsqrt_core_binary.
  match goal with |- context [Z.sqrtrem ?m'] =>
    pose proof (sqrtrem_nonneg m') as Hq; destruct (Z.sqrtrem m') as [q r] end.
  simpl in Hq. apply binary_round_aux_signed. exact Hq.
Qed.

Lemma SFdiv_finite (a : spec_float) (sb : bool) (mb : positive) (eb : Z) :
  a <> S754_nan -> SFdiv prec emax a (S754_finite sb mb eb) <> S754_nan.
Proof.
  destruct a as [s|s| |s m e]; intros Ha; try congruence; simpl; try discriminate.
  unfold SFdiv_core_binary.
  match goal with |- context [Z.div_eucl ?m' (Z.pos mb)] =>
    assert (Hm : 0 <= m');
    [ | pose proof (Z.div_pos m' (Z.pos mb) Hm eq_refl) as Hq;
        unfold Z.div in Hq; destruct (Z.div_eucl m' (Z.pos mb)) as [q r] ]
  end.
  { match goal with |- 0 <= match ?s with _ => _ end => destruct s end;
      try lia. apply Z.shiftl_nonneg. lia. }
  match goal with |- binary_round_aux _ _ ?s ?q ?e ?l <> _ =>
    pose proof (binary_round_aux_signed s q e l Hq) as Hs;
    destruct (binary_round_aux prec emax s q e l);
      [discriminate|discriminate|contradiction|discriminate]
  end.
Qed.

End Rounding.

Section FloatFinite.

Local Open Scope float_scope.

Lemma is_finite_spec (f : float) : is_finite f = true -> finite_spec (Prim2SF f).
Proof.
  unfold is_finite, is_infinity. rewrite negb_true_iff, orb_false_iff.
  intros [Hn Hi]. apply is_nan_false in Hn.
  rewrite FloatAxioms.eqb_spec, abs_spec in Hi.
  change (Prim2SF infinity) with (S754_infinity false) in Hi.
  destruct (Prim2SF f) as [s|s| |s m e]; simpl; try exact I; try congruence.
  discriminate.
Qed.

Lemma nonzero_finite_spec (f : float) :
  is_finite f = true -> (f =? 0) = false ->
  exists s m e, Prim2SF f = S754_finite s m e.
Proof.
  intros Hf Hz. apply is_finite_spec in Hf.
  rewrite FloatAxioms.eqb_spec in Hz. change (Prim2SF 0) with (S754_zero false) in Hz.
  destruct (Prim2SF f) as [s|s| |s m e]; try contradiction; [discriminate|].
  eauto.
Qed.

Lemma div_not_nan (a b : float) :
  is_nan a = false -> is_finite b = true -> (b =? 0) = false -> is_nan (a / b) = false.
Proof.
  intros Ha Hb Hz. apply is_nan_false. rewrite FloatAxioms.div_spec.
  destruct (nonzero_finite_spec b Hb Hz) as (s & m & e & ->).
  apply SFdiv_finite. apply is_nan_false, Ha.
Qed.

Lemma signed_not_nan (s : bool) (f : float) : signed_as s (Prim2SF f) -> is_nan f = false.
Proof.
  intros Hs. apply is_nan_false. destruct (Prim2SF f); [discriminate|discriminate|contradiction|discriminate].
Qed.

Lemma distance_not_nan (a b : point) :
  is_finite (x a) = true -> is_finite (y a) = true ->
  is_finite (x b) = true -> is_finite (y b) = true ->
  is_nan (distance a b) = false.
Proof.
  intros Hxa Hya Hxb Hyb. apply (signed_not_nan false).
  unfold distance, JS.Math_sqrt, JS.Math_pow2.
  rewrite FloatAxioms.sqrt_spec, FloatAxioms.add_spec, !FloatAxioms.mul_spec,
    !FloatAxioms.sub_spec.
  apply SFsqrt_nonneg, SFadd_nonneg; apply SFmul_square, SFsub_finite;
    apply is_finite_spec; assumption.
Qed.

End FloatFinite.

(** ** The store and the phases of [optimizeLayout] *)

Section Store.

Context {A : Type} `{Number A}.

Implicit Types (h : Heap A) (vs : list (Node A)) (arr : list addr).

Lemma mapM_lookup_seq {T : Type} (old new : list T) :
  mapM (fun a => (old ++ new) !! a) (seq (length old) (length new)) = Some new.
Proof.
  apply mapM_Some. apply Forall2_same_length_lookup. split.
  - apply length_seq.
  - intros i a v Ha Hv. apply lookup_seq in Ha as [-> Hi].
    rewrite lookup_app_r by lia. rewrite <- Hv. f_equal. lia.
Qed.

Lemma read_nodes_ext h h' arr :
  (forall a, a ∈ arr -> node_objs h' !! a = node_objs h !! a) ->
  read_nodes h' arr = read_nodes h arr.
Proof.
  intros Heq. apply Forall_mapM_ext, Forall_forall. exact Heq.
Qed.

Lemma read_edges_ext h h' arr :
  (forall a, a ∈ arr -> edge_objs h' !! a = edge_objs h !! a) ->
  read_edges h' arr = read_edges h arr.
Proof.
  intros Heq. apply Forall_mapM_ext, Forall_forall. exact Heq.
Qed.

Lemma read_nodes_bound h arr vs a :
  read_nodes h arr = Some vs -> a ∈ arr -> (a < length (node_objs h))%nat.
Proof.
  intros Hr Ha. apply mapM_Some in Hr.
  apply list_elem_of_lookup in Ha as [i Hi].
  destruct (Forall2_lookup_l _ _ _ _ _ Hr Hi) as (v & _ & Hv).
  eapply lookup_lt_Some, Hv.
Qed.

Lemma read_edges_bound h arr (es : list Edge) a :
  read_edges h arr = Some es -> a ∈ arr -> (a < length (edge_objs h))%nat.
Proof.
  intros Hr Ha. apply mapM_Some in Hr.
  apply list_elem_of_lookup in Ha as [i Hi].
  destruct (Forall2_lookup_l _ _ _ _ _ Hr Hi) as (v & _ & Hv).
  eapply lookup_lt_Some, Hv.
Qed.

Lemma read_allocated_nodes h vs (es : list Edge) :
  read_nodes (mkHeap (node_objs h ++ vs) es) (seq (length (node_objs h)) (length vs))
  = Some vs.
Proof. apply mapM_lookup_seq. Qed.

Lemma keeps_ids_refl h : keeps_ids h h.
Proof. intros a. reflexivity. Qed.

Lemma keeps_ids_trans h1 h2 h3 : keeps_ids h1 h2 -> keeps_ids h2 h3 -> keeps_ids h1 h3.
Proof. intros H12 H23 a. rewrite H23. apply H12. Qed.

Lemma frames_refl ns ls h : frames ns ls h h.
Proof. repeat split. Qed.

Lemma frames_trans ns ls h1 h2 h3 :
  frames ns ls h1 h2 -> frames ns ls h2 h3 -> frames ns ls h1 h3.
Proof.
  intros (Ln & Le & Fn & Fe) (Ln' & Le' & Fn' & Fe'). repeat split.
  - congruence.
  - congruence.
  - intros a Ha. rewrite Fn' by assumption. auto.
  - intros a Ha. rewrite Fe' by assumption. auto.
Qed.

(** What holds of every operation of the engine holds of the whole loop,
    whether it runs to its end or a tick throws. *)
Lemma run_ticks_respects (E : Engine A) (P : list addr -> list addr -> Heap A -> Heap A -> Prop)
    ns ls :
  engine_respects E P ->
  (forall h, P ns ls h h) ->
  (forall h1 h2 h3, P ns ls h1 h2 -> P ns ls h2 h3 -> P ns ls h1 h3) ->
  forall n sim h, P ns ls h (snd (run_ticks E n sim ns ls h)).
Proof.
  intros [_ Htick] Hrefl Htrans n. induction n as [|n IH]; intros sim h; simpl.
  - apply Hrefl.
  - unfold bind. pose proof (Htick sim ns ls h) as Hstep.
    destruct (tick E sim ns ls h) as [[sim'|e] h1]; simpl in Hstep.
    + eapply Htrans; [exact Hstep | apply IH].
    + exact Hstep.
Qed.

Lemma run_engine_respects (E : Engine A) (P : list addr -> list addr -> Heap A -> Heap A -> Prop)
    options ns ls :
  engine_respects E P ->
  (forall h, P ns ls h h) ->
  (forall h1 h2 h3, P ns ls h1 h2 -> P ns ls h2 h3 -> P ns ls h1 h3) ->
  forall h, P ns ls h (snd (run_engine E options ns ls h)).
Proof.
  intros HE Hrefl Htrans h. unfold run_engine, bind.
  pose proof (proj1 HE (force_setup options) ns ls h) as Hbuild.
  destruct (forceSimulation E (force_setup options) ns ls h) as [[sim|e] h3];
    simpl in Hbuild; [|exact Hbuild].
  pose proof (run_ticks_respects E P ns ls HE Hrefl Htrans
                (Z.to_nat (iterations options)) sim h3) as Hloop.
  destruct (run_ticks E (Z.to_nat (iterations options)) sim ns ls h3) as [[sim'|e] h4];
    simpl in Hloop; eapply Htrans; eassumption.
Qed.

Lemma keeps_ids_read h h' arr vs :
  keeps_ids h h' -> read_nodes h arr = Some vs ->
  exists vs', read_nodes h' arr = Some vs' /\ map id vs' = map id vs.
Proof.
  intros Hk Hr. unfold keeps_ids in Hk. apply mapM_Some in Hr.
  induction Hr as [|a v arr vs Hv _ IH].
  - exists []. split; reflexivity.
  - destruct IH as (vs' & Hr' & Hid).
    pose proof (Hk a) as Ha. rewrite Hv in Ha. simpl in Ha.
    destruct (node_objs h' !! a) as [v'|] eqn:Hv'; [|discriminate].
    exists (v' :: vs'). split.
    + unfold read_nodes in *. simpl. rewrite Hv'. simpl. rewrite Hr'. reflexivity.
    + simpl. simpl in Ha. congruence.
Qed.

Lemma prepare_returns options g h ins es :
  read_nodes h (nodes g) = Some ins -> read_edges h (edges g) = Some es ->
  prepare options g h =
    (Returned (seq (length (node_objs h)) (length ins),
               seq (length (edge_objs h)) (length es)),
     mkHeap (node_objs h ++ map (to_workspace options) ins)
            (edge_objs h ++ map to_link es)).
Proof.
  intros Hn He. unfold prepare, bind, get_nodes, get_edges, alloc_nodes, alloc_edges, ret.
  rewrite Hn. unfold read_edges in *. simpl. rewrite He. simpl.
  rewrite !length_map. reflexivity.
Qed.

Lemma prepare_inv options g h ns ls h2 :
  prepare options g h = (Returned (ns, ls), h2) ->
  exists ins es,
    read_nodes h (nodes g) = Some ins /\ read_edges h (edges g) = Some es
    /\ ns = seq (length (node_objs h)) (length ins)
    /\ ls = seq (length (edge_objs h)) (length es)
    /\ h2 = mkHeap (node_objs h ++ map (to_workspace options) ins)
                   (edge_objs h ++ map to_link es).
Proof.
  destruct (read_nodes h (nodes g)) as [ins|] eqn:Hn.
  - destruct (read_edges h (edges g)) as [es|] eqn:He.
    + rewrite (prepare_returns options g h ins es Hn He). intros [= <- <- <-].
      exists ins, es. repeat split.
    + unfold prepare, bind, get_nodes, get_edges, alloc_nodes. rewrite Hn.
      unfold read_edges in *. simpl. rewrite He. discriminate.
  - unfold prepare, bind, get_nodes. rewrite Hn. discriminate.
Qed.

(** The phases of [simulate]: either the arrays cannot be built, or the
    engine runs over them and what it respects holds of the whole phase. *)
Lemma simulate_cases (E : Engine A) (P : list addr -> list addr -> Heap A -> Heap A -> Prop)
    options g h :
  engine_respects E P ->
  (forall ns ls h, P ns ls h h) ->
  (forall ns ls h1 h2 h3, P ns ls h1 h2 -> P ns ls h2 h3 -> P ns ls h1 h3) ->
  match prepare options g h with
  | (Thrown e, h2) => simulate E options g h = (Thrown e, h2)
  | (Returned (ns, ls), h2) =>
      exists r h4,
        simulate E options g h = (r, h4) /\ P ns ls h2 h4
        /\ (forall moved, r = Returned moved -> read_nodes h4 ns = Some moved)
  end.
Proof.
  intros HE Hrefl Htrans. unfold simulate, bind.
  destruct (prepare options g h) as [[[ns ls]|e] h2]; [|reflexivity].
  pose proof (run_engine_respects E P options ns ls HE (Hrefl ns ls) (Htrans ns ls) h2)
    as HP.
  destruct (run_engine E options ns ls h2) as [[[]|e] h4]; simpl in HP.
  - unfold get_nodes. destruct (read_nodes h4 ns) as [moved|] eqn:Hm.
    + eexists _, _. split; [reflexivity|]. split; [exact HP|].
      intros moved' [= <-]. exact Hm.
    + eexists _, _. split; [reflexivity|]. split; [exact HP|]. intros moved' [=].
  - eexists _, _. split; [reflexivity|]. split; [exact HP|]. intros moved' [=].
Qed.

Lemma optimizeLayout_inv (E : Engine A) options g h out h' :
  optimizeLayout E options g h = (Returned out, h') ->
  exists moved h4,
    simulate E options g h = (Returned moved, h4)
    /\ out = seq (length (node_objs h4)) (length moved)
    /\ h' = mkHeap (node_objs h4 ++ map (to_unit_square options) moved) (edge_objs h4)
    /\ read_nodes h' out = Some (map (to_unit_square options) moved).
Proof.
  unfold optimizeLayout, bind.
  destruct (simulate E options g h) as [[moved|e] h4] eqn:Hs; [|discriminate].
  unfold alloc_nodes. intros [= <- <-]. exists moved, h4.
  rewrite length_map. repeat split.
  pose proof (read_allocated_nodes h4 (map (to_unit_square options) moved) (edge_objs h4))
    as Hr.
  rewrite length_map in Hr. exact Hr.
Qed.

Lemma optimizeLayout_thrown (E : Engine A) options g h e h' :
  optimizeLayout E options g h = (Thrown e, h') ->
  simulate E options g h = (Thrown e, h').
Proof.
  unfold optimizeLayout, bind.
  destruct (simulate E options g h) as [[moved|e'] h4]; [discriminate|].
  intros [= <- <-]. reflexivity.
Qed.

End Store.

(** ** Identity and order of the returned vertices, and the frame *)

Section LayoutProperties.

Context {A : Type} `{Number A}.

Lemma map_id_to_workspace (options : LayoutOptions A) (vs : list (Node A)) :
  map id (map (to_workspace options) vs) = map id vs.
Proof. rewrite map_map. reflexivity. Qed.

Lemma map_id_to_unit_square (options : LayoutOptions A) (vs : list (Node A)) :
  map id (map (to_unit_square options) vs) = map id vs.
Proof. rewrite map_map. reflexivity. Qed.

(** C2. For every input graph, the sequence [optimizeLayout] returns has the
    length of [graph.nodes], and the vertex returned at index [i] has the
    identifier of the input vertex at index [i]: only positions change.
    (The engine is one that never writes an [id].) *)
Theorem optimizeLayout_preserves_identifiers (E : Engine A) (options : LayoutOptions A)
    (g : GraphData) (h : Heap A) (out : list addr) (h' : Heap A) :
  engine_keeps_ids E ->
  optimizeLayout E options g h = (Returned out, h') ->
  exists ins outs,
    read_nodes h (nodes g) = Some ins /\ read_nodes h' out = Some outs
    /\ length out = length (nodes g)
    /\ length outs = length ins
    /\ map id outs = map id ins
    /\ forall i, id <$> outs !! i = id <$> ins !! i.
Proof.
  intros HE Ho.
  destruct (optimizeLayout_inv _ _ _ _ _ _ Ho) as (moved & h4 & Hs & -> & -> & Hout).
  pose proof (simulate_cases E (fun _ _ => keeps_ids) options g h HE
                (fun _ _ => keeps_ids_refl) (fun _ _ => keeps_ids_trans)) as Hc.
  destruct (prepare options g h) as [[[ns ls]|e] h2] eqn:Hp;
    [|rewrite Hs in Hc; discriminate].
  destruct Hc as (r & h4' & Hs' & Hk & Hm). rewrite Hs in Hs'. injection Hs' as <- <-.
  specialize (Hm moved eq_refl).
  destruct (prepare_inv _ _ _ _ _ _ Hp) as (ins & es & Hin & He & -> & -> & ->).
  pose proof (read_allocated_nodes h (map (to_workspace options) ins)
                (edge_objs h ++ map to_link es)) as Hr2.
  rewrite length_map in Hr2.
  destruct (keeps_ids_read _ _ _ _ Hk Hr2) as (moved' & Hm' & Hid).
  rewrite Hm in Hm'. injection Hm' as <-.
  rewrite map_id_to_workspace in Hid.
  assert (Hids : map id (map (to_unit_square options) moved) = map id ins).
  { rewrite map_id_to_unit_square. exact Hid. }
  exists ins, (map (to_unit_square options) moved).
  split; [assumption|]. split; [assumption|].
  assert (Hlen : length (map (to_unit_square options) moved) = length ins).
  { rewrite <- (length_map id), Hids, length_map. reflexivity. }
  split.
  { rewrite length_seq. rewrite length_map in Hlen. rewrite Hlen.
    symmetry. eapply length_mapM, Hin. }
  split; [assumption|]. split; [assumption|].
  intros i. rewrite <- !list_lookup_fmap.
  change (map id (map (to_unit_square options) moved) !! i = map id ins !! i).
  rewrite Hids. reflexivity.
Qed.

(** An object of the input is below the addresses of the two fresh arrays,
    which is all the engine may write. *)
Lemma frames_keep_input (h h4 : Heap A) (new_nodes : list (Node A)) (new_edges : list Edge)
    (n m : nat) :
  frames (seq (length (node_objs h)) n) (seq (length (edge_objs h)) m)
         (mkHeap (node_objs h ++ new_nodes) (edge_objs h ++ new_edges)) h4 ->
  (forall a, (a < length (node_objs h))%nat -> node_objs h4 !! a = node_objs h !! a)
  /\ (forall a, (a < length (edge_objs h))%nat -> edge_objs h4 !! a = edge_objs h !! a)
  /\ (length (node_objs h) <= length (node_objs h4))%nat.
Proof.
  intros (Ln & Le & Fn & Fe). simpl in *. split; [|split].
  - intros a Ha. rewrite Fn by (rewrite elem_of_seq; lia). apply lookup_app_l, Ha.
  - intros a Ha. rewrite Fe by (rewrite elem_of_seq; lia). apply lookup_app_l, Ha.
  - rewrite Ln, length_app. lia.
Qed.

(** C9. [optimizeLayout] never writes its input: after the call, whether it
    returned or threw, every object that existed before it is what it was,
    so every vertex of [graph.nodes] has its identifier and position and
    [graph.edges] is unchanged; the returned vertices are objects allocated
    by the call.  (The engine is one that writes only the objects of the
    arrays it is given.) *)
Theorem optimizeLayout_leaves_input (E : Engine A) (options : LayoutOptions A)
    (g : GraphData) (h : Heap A) (ins : list (Node A)) (es : list Edge)
    (r : outcome (list addr)) (h' : Heap A) :
  engine_frames E ->
  read_nodes h (nodes g) = Some ins ->
  read_edges h (edges g) = Some es ->
  optimizeLayout E options g h = (r, h') ->
  keeps_objects h h'
  /\ read_nodes h' (nodes g) = Some ins
  /\ read_edges h' (edges g) = Some es
  /\ (forall out a, r = Returned out -> a ∈ out -> (length (node_objs h) <= a)%nat).
Proof.
  intros HE Hin Hes Ho.
  pose proof (simulate_cases E frames options g h HE frames_refl frames_trans) as Hc.
  rewrite (prepare_returns options g h ins es Hin Hes) in Hc.
  destruct Hc as (rs & h4 & Hs & Hf & _).
  apply frames_keep_input in Hf as (Hn & He & Hlen).
  assert (Hshape : exists extra,
            h' = mkHeap (node_objs h4 ++ extra) (edge_objs h4)
            /\ forall out a, r = Returned out -> a ∈ out ->
                  (length (node_objs h4) <= a)%nat).
  { unfold optimizeLayout, bind in Ho. rewrite Hs in Ho. destruct rs as [moved|e].
    - unfold alloc_nodes in Ho. injection Ho as <- <-. eexists. split; [reflexivity|].
      intros out a [= <-] Ha. apply elem_of_seq in Ha. lia.
    - injection Ho as <- <-. exists []. rewrite app_nil_r.
      split; [destruct h4; reflexivity|]. intros out a [=]. }
  destruct Hshape as (extra & -> & Hfresh). simpl.
  assert (Hnode : forall a, (a < length (node_objs h))%nat ->
                    (node_objs h4 ++ extra) !! a = node_objs h !! a).
  { intros a Ha. rewrite lookup_app_l by lia. apply Hn, Ha. }
  split; [split|split; [|split]].
  - intros a v Hv. simpl. rewrite Hnode; [exact Hv | eapply lookup_lt_Some, Hv].
  - intros a e Hv. simpl. rewrite He; [exact Hv | eapply lookup_lt_Some, Hv].
  - rewrite <- Hin. apply read_nodes_ext. intros a Ha. apply Hnode.
    eapply read_nodes_bound; eassumption.
  - rewrite <- Hes. apply read_edges_ext. intros a Ha. apply He.
    eapply read_edges_bound; eassumption.
  - intros out a Hr Ha. specialize (Hfresh out a Hr Ha). lia.
Qed.

End LayoutProperties.
(** ** The two concrete engines *)

Section Engines.

Context {A : Type}.

(** An engine that writes nothing respects every reflexive property. *)
Lemma inert_engine_respects (E : Engine A)
    (P : list addr -> list addr -> Heap A -> Heap A -> Prop) :
  (forall setup ns ls h, snd (forceSimulation E setup ns ls h) = h) ->
  (forall sim ns ls h, snd (tick E sim ns ls h) = h) ->
  (forall ns ls h, P ns ls h h) ->
  engine_respects E P.
Proof.
  intros Hbuild Htick Hrefl. split.
  - intros setup ns ls h. rewrite Hbuild. apply Hrefl.
  - intros sim ns ls h. rewrite Htick. apply Hrefl.
Qed.

Lemma still_engine_build setup ns ls (h : Heap A) :
  snd (forceSimulation (still_engine A) setup ns ls h) = h.
Proof. reflexivity. Qed.

Lemma strict_engine_build setup ns ls (h : Heap A) :
  snd (forceSimulation (strict_engine A) setup ns ls h) = h.
Proof.
  simpl. destruct (first_unresolved h ns (omap (fun a => edge_objs h !! a) ls));
    reflexivity.
Qed.

Lemma still_engine_keeps_ids : engine_keeps_ids (still_engine A).
Proof.
  apply inert_engine_respects;
    [apply still_engine_build | reflexivity | intros _ _; apply keeps_ids_refl].
Qed.

Lemma strict_engine_keeps_ids : engine_keeps_ids (strict_engine A).
Proof.
  apply inert_engine_respects;
    [apply strict_engine_build | reflexivity | intros _ _; apply keeps_ids_refl].
Qed.

Lemma still_engine_frames : engine_frames (still_engine A).
Proof.
  apply inert_engine_respects;
    [apply still_engine_build | reflexivity | apply frames_refl].
Qed.

Lemma strict_engine_frames : engine_frames (strict_engine A).
Proof.
  apply inert_engine_respects;
    [apply strict_engine_build | reflexivity | apply frames_refl].
Qed.

Lemma first_unresolved_none (h : Heap A) ns ls :
  links_resolve h ns ls ->
  first_unresolved h ns (omap (fun a => edge_objs h !! a) ls) = None.
Proof.
  induction ls as [|a ls IH]; intros Hres; [reflexivity|].
  assert (Hrest : links_resolve h ns ls).
  { intros b l Hb Hl. apply (Hres b l); [apply elem_of_cons; right; exact Hb | exact Hl]. }
  simpl. destruct (edge_objs h !! a) as [l|] eqn:Hl; [|apply IH, Hrest].
  simpl. destruct (Hres a l) as [Hs Ht]; [apply elem_of_cons; left; reflexivity | exact Hl |].
  rewrite Hs, Ht. simpl. apply IH, Hrest.
Qed.

Lemma still_engine_settles : engine_settles (still_engine A).
Proof. intros setup ns ls h _. exists tt, h. split; reflexivity. Qed.

Lemma strict_engine_settles : engine_settles (strict_engine A).
Proof.
  intros setup ns ls h Hres. exists tt, h. simpl.
  rewrite first_unresolved_none by assumption. split; reflexivity.
Qed.

End Engines.

(** ** No iteration, in exact arithmetic *)

Section ExactLayout.

Local Open Scope Q_scope.

Lemma clamp01_exact (v v0 : Q) : v == v0 -> 0 <= v0 <= 1 -> clamp01 v == v0.
Proof.
  intros Hv [H0 H1]. unfold clamp01. simpl. unfold Qmax_bool, Qmin_bool.
  destruct (Qle_bool 1 v) eqn:E1.
  - apply Qle_bool_iff in E1. simpl. lra.
  - destruct (Qle_bool 0 v) eqn:E0; [assumption|].
    assert (Hn : ~ 0 <= v) by (rewrite <- Qle_bool_iff; congruence). lra.
Qed.

Lemma scale_back_exact (v w : Q) : 0 < w -> v * w / w == v.
Proof. intros Hw. apply Qdiv_mult_l. lra. Qed.

(** The links built from edges whose endpoints are identifiers of the
    vertices all resolve among the nodes of the workspace. *)
Lemma prepared_links_resolve {A : Type} `{Number A} (options : LayoutOptions A)
    (h : Heap A) (ins : list (Node A)) (es : list Edge) :
  (forall e, e ∈ es -> source e ∈ map id ins /\ target e ∈ map id ins) ->
  links_resolve
    (mkHeap (node_objs h ++ map (to_workspace options) ins) (edge_objs h ++ map to_link es))
    (seq (length (node_objs h)) (length ins))
    (seq (length (edge_objs h)) (length es)).
Proof.
  intros Hends a l Ha Hl. simpl in Hl.
  apply elem_of_seq in Ha.
  rewrite lookup_app_r in Hl by lia.
  apply list_elem_of_lookup_2 in Hl.
  apply list_elem_of_fmap in Hl as (e & -> & He).
  destruct (Hends e He) as [Hs Ht].
  assert (Hres : forall k, k ∈ map id ins ->
            link_resolves
              (mkHeap (node_objs h ++ map (to_workspace options) ins)
                      (edge_objs h ++ map to_link es))
              (seq (length (node_objs h)) (length ins)) k = true).
  { intros k Hk. apply list_elem_of_fmap in Hk as (n & -> & Hn).
    apply list_elem_of_lookup in Hn as [i Hi].
    unfold link_resolves. apply bool_decide_eq_true. apply Exists_exists.
    exists (length (node_objs h) + i)%nat. split.
    - apply elem_of_seq. apply lookup_lt_Some in Hi. lia.
    - simpl. rewrite lookup_app_r by lia.
      replace (length (node_objs h) + i - length (node_objs h))%nat with i by lia.
      change (map (to_workspace options) ins) with (to_workspace options <$> ins).
      rewrite list_lookup_fmap, Hi. reflexivity. }
  split; apply Hres; assumption.
Qed.

(** Without a tick, over resolvable links, the returned vertices are the
    input vertices scaled to the workspace and back, whatever the numbers. *)
Lemma optimizeLayout_without_ticks {A : Type} `{Number A} (E : Engine A)
    (options : LayoutOptions A) (g : GraphData) (h : Heap A)
    (ins : list (Node A)) (es : list Edge) :
  engine_settles E ->
  iterations options = 0%Z ->
  read_nodes h (nodes g) = Some ins ->
  read_edges h (edges g) = Some es ->
  (forall e, e ∈ es -> source e ∈ map id ins /\ target e ∈ map id ins) ->
  exists out h',
    optimizeLayout E options g h = (Returned out, h')
    /\ read_nodes h' out
       = Some (map (to_unit_square options) (map (to_workspace options) ins)).
Proof.
  intros HE Hit Hin Hes Hends.
  pose proof (prepare_returns options g h ins es Hin Hes) as Hp.
  pose proof (prepared_links_resolve options h ins es Hends) as Hres.
  destruct (HE (force_setup options) _ _ _ Hres) as (sim & h3 & Hf & Hsame).
  assert (Hread : read_nodes h3 (seq (length (node_objs h)) (length ins))
                  = Some (map (to_workspace options) ins)).
  { unfold read_nodes. rewrite Hsame. simpl.
    pose proof (mapM_lookup_seq (node_objs h) (map (to_workspace options) ins)) as Hq.
    rewrite length_map in Hq. exact Hq. }
  assert (Hs : simulate E options g h = (Returned (map (to_workspace options) ins), h3)).
  { unfold simulate, bind. rewrite Hp. unfold run_engine, bind. rewrite Hf, Hit. simpl.
    unfold get_nodes. rewrite Hread. reflexivity. }
  assert (Ho : optimizeLayout E options g h
               = alloc_nodes (map (to_unit_square options)
                                (map (to_workspace options) ins)) h3).
  { unfold optimizeLayout, bind. rewrite Hs. reflexivity. }
  unfold alloc_nodes in Ho.
  eexists _, _. split; [exact Ho|]. apply read_allocated_nodes.
Qed.

(** [Math.max(0, Math.min(1, v))] on exact numbers: the nearest number of
    the unit interval. *)
Lemma clamp01_cases (v v0 : Q) :
  v == v0 ->
  0 <= clamp01 v <= 1
  /\ (v0 < 0 -> clamp01 v == 0)
  /\ (0 <= v0 <= 1 -> clamp01 v == v0)
  /\ (1 < v0 -> clamp01 v == 1).
Proof.
  intros Hv. unfold clamp01. simpl. unfold Qmax_bool, Qmin_bool.
  destruct (Qle_bool 1 v) eqn:E1.
  - apply Qle_bool_iff in E1. simpl. repeat split; intros; lra.
  - assert (H1 : ~ 1 <= v) by (rewrite <- Qle_bool_iff; congruence).
    destruct (Qle_bool 0 v) eqn:E0.
    + apply Qle_bool_iff in E0. repeat split; intros; lra.
    + assert (H0 : ~ 0 <= v) by (rewrite <- Qle_bool_iff; congruence).
      repeat split; intros; lra.
Qed.

(** C10. With [iterations = 0], a positive width and height and every edge
    endpoint the identifier of a vertex, [optimizeLayout] is a clamped
    identity in exact arithmetic: the vertex returned at index [i] has the
    identifier of the input vertex at [i], [x = clamp((x_in * width) / width)]
    and [y = clamp((y_in * height) / height)], where the clamp keeps a
    coordinate of [0,1] as it was, returns [0] for a negative one and [1]
    for one above [1]; every returned coordinate lies in [0,1].  (The engine
    is one whose construction over resolvable links returns and moves no
    node.) *)
Theorem optimizeLayout_zero_iterations (E : Engine Q) (options : LayoutOptions Q)
    (g : GraphData) (h : Heap Q) (ins : list (Node Q)) (es : list Edge) :
  let clamped (v r : Q) :=
    0 <= r <= 1 /\ (v < 0 -> r == 0) /\ (0 <= v <= 1 -> r == v) /\ (1 < v -> r == 1) in
  engine_settles E ->
  iterations options = 0%Z ->
  0 < width options -> 0 < height options ->
  read_nodes h (nodes g) = Some ins ->
  read_edges h (edges g) = Some es ->
  (forall e, e ∈ es -> source e ∈ map id ins /\ target e ∈ map id ins) ->
  exists out h',
    optimizeLayout E options g h = (Returned out, h')
    /\ read_nodes h' out =
         Some (map (fun n =>
                      mkNode (id n)
                        (clamp01 (x n * width options / width options))
                        (clamp01 (y n * height options / height options))) ins)
    /\ exists outs,
         read_nodes h' out = Some outs
         /\ Forall2 (fun n o =>
                       id o = id n
                       /\ (0 <= x n <= 1 -> x o == x n)
                       /\ (0 <= y n <= 1 -> y o == y n)
                       /\ clamped (x n) (x o) /\ clamped (y n) (y o)) ins outs.
Proof.
  intros clamped HE Hit Hw Hh Hin Hes Hends.
  destruct (optimizeLayout_without_ticks E options g h ins es HE Hit Hin Hes Hends)
    as (out & h' & Ho & Hout).
  rewrite map_map in Hout.
  exists out, h'. split; [exact Ho|]. split; [exact Hout|].
  eexists. split; [exact Hout|].
  apply Forall2_fmap_r. apply Forall_Forall2_diag. apply Forall_forall.
  intros n _. simpl. split; [reflexivity|].
  split; [intros Hin01; apply clamp01_exact;
            [apply scale_back_exact; assumption | assumption]|].
  split; [intros Hin01; apply clamp01_exact;
            [apply scale_back_exact; assumption | assumption]|].
  split; apply clamp01_cases, scale_back_exact; assumption.
Qed.

End ExactLayout.

(** ** What decides whether [optimizeLayout] returns *)

Section Completion.

Context {A : Type} `{Number A}.

(** Every edge of the input, resolvable or not, is copied into the array of
    links the engine is built over. *)
Lemma prepare_hands_over_every_edge (options : LayoutOptions A) (g : GraphData)
    (h : Heap A) ns ls h2 :
  prepare options g h = (Returned (ns, ls), h2) ->
  exists es, read_edges h (edges g) = Some es /\ read_edges h2 ls = Some (map to_link es).
Proof.
  intros Hp. destruct (prepare_inv _ _ _ _ _ _ Hp) as (ins & es & _ & He & _ & -> & ->).
  exists es. split; [assumption|].
  pose proof (mapM_lookup_seq (edge_objs h) (map to_link es)) as Hq.
  rewrite length_map in Hq. exact Hq.
Qed.

(** C8, as the code has it.  Neither the constructor nor [optimizeLayout]
    checks the width or the height: whatever the options, once the two arrays
    are built over the input, [optimizeLayout] throws exactly what the engine
    throws and returns when the engine returns.  (The engine is one that
    drops no node object.) *)
Theorem optimizeLayout_no_validation (E : Engine A) (partial : PartialOptions A)
    (g : GraphData) (h : Heap A) (ins : list (Node A)) (es : list Edge) :
  engine_keeps_ids E ->
  read_nodes h (nodes g) = Some ins ->
  read_edges h (edges g) = Some es ->
  let options := new_ForceDirectedLayout partial in
  width options = default (nlit 800) (p_width partial)
  /\ height options = default (nlit 600) (p_height partial)
  /\ exists ns ls h2,
       prepare options g h = (Returned (ns, ls), h2)
       /\ match run_engine E options ns ls h2 with
          | (Thrown e, h4) => optimizeLayout E options g h = (Thrown e, h4)
          | (Returned _, _) =>
              exists out h', optimizeLayout E options g h = (Returned out, h')
          end.
Proof.
  intros HE Hin Hes options. split; [reflexivity|]. split; [reflexivity|].
  pose proof (prepare_returns options g h ins es Hin Hes) as Hp.
  eexists _, _, _. split; [exact Hp|].
  set (ns := seq (length (node_objs h)) (length ins)) in *.
  set (ls := seq (length (edge_objs h)) (length es)) in *.
  set (h2 := mkHeap (node_objs h ++ map (to_workspace options) ins)
                    (edge_objs h ++ map to_link es)) in *.
  unfold optimizeLayout, simulate, bind. rewrite Hp.
  pose proof (run_engine_respects E (fun _ _ => keeps_ids) options ns ls HE
                keeps_ids_refl keeps_ids_trans h2) as Hk.
  destruct (run_engine E options ns ls h2) as [[[]|e] h4]; [|reflexivity].
  simpl in Hk.
  assert (Hr2 : read_nodes h2 ns = Some (map (to_workspace options) ins)).
  { pose proof (mapM_lookup_seq (node_objs h) (map (to_workspace options) ins)) as Hq.
    rewrite length_map in Hq. exact Hq. }
  destruct (keeps_ids_read _ _ _ _ Hk Hr2) as (moved & Hm & _).
  unfold get_nodes. rewrite Hm. eexists _, _. reflexivity.
Qed.

End Completion.

(** ** Bounds of the returned coordinates *)

Section Bounds.

Local Open Scope float_scope.

Lemma clamp01_in_unit_interval (v : float) :
  if is_nan v then clamp01 v = nan else in_unit_interval (clamp01 v) = true.
Proof.
  destruct (is_nan v) eqn:Hv.
  - apply clamp01_nan, Hv.
  - destruct (clamp01_unit v Hv) as [H0 H1]. unfold in_unit_interval.
    rewrite H0, H1. reflexivity.
Qed.

Lemma validateCoordinates_unit (vs : list point) :
  Forall (fun v => in_unit_interval (x v) = true /\ in_unit_interval (y v) = true) vs ->
  validateCoordinates vs = true.
Proof.
  intros Hvs. unfold validateCoordinates. apply forallb_forall.
  intros v Hv. rewrite Forall_forall in Hvs.
  destruct (Hvs v) as [Hx Hy]; [apply list_elem_of_In, Hv|].
  unfold in_unit_interval in Hx, Hy.
  apply andb_true_iff in Hx as [-> ->]. apply andb_true_iff in Hy as [-> ->].
  reflexivity.
Qed.

(** C1, as the code has it.  Every coordinate of every returned vertex is
    [clamp(simX / width, 0, 1)] (resp. [simY / height]); it lies in [0,1]
    unless that quotient is NaN, and is NaN when the quotient is.  When no
    quotient is NaN, [validateCoordinates] accepts the result; no quotient is
    NaN when width and height are finite and not zero and the engine leaves
    no NaN position. *)
Theorem optimizeLayout_bounds (E : Engine float) (options : LayoutOptions float)
    (g : GraphData) (h : Heap float) (out : list addr) (h' : Heap float) :
  optimizeLayout E options g h = (Returned out, h') ->
  exists moved h4 outs,
    simulate E options g h = (Returned moved, h4)
    /\ read_nodes h' out = Some outs
    /\ Forall2 (fun m o =>
                  x o = JS.Math_max 0 (JS.Math_min 1 (x m / width options))
                  /\ y o = JS.Math_max 0 (JS.Math_min 1 (y m / height options))
                  /\ (if is_nan (x m / width options) then x o = nan
                      else in_unit_interval (x o) = true)
                  /\ (if is_nan (y m / height options) then y o = nan
                      else in_unit_interval (y o) = true))
               moved outs
    /\ (Forall (fun m => is_nan (x m / width options) = false
                         /\ is_nan (y m / height options) = false) moved ->
        validateCoordinates outs = true)
    /\ (is_finite (width options) = true -> (width options =? 0) = false ->
        is_finite (height options) = true -> (height options =? 0) = false ->
        Forall (fun m => is_nan (x m) = false /\ is_nan (y m) = false) moved ->
        validateCoordinates outs = true).
Proof.
  intros Ho.
  destruct (optimizeLayout_inv _ _ _ _ _ _ Ho) as (moved & h4 & Hs & -> & -> & Hout).
  exists moved, h4, (map (to_unit_square options) moved).
  split; [assumption|]. split; [assumption|].
  assert (Hvalid : Forall (fun m => is_nan (x m / width options) = false
                                    /\ is_nan (y m / height options) = false) moved ->
                   validateCoordinates (map (to_unit_square options) moved) = true).
  { intros Hq. apply validateCoordinates_unit.
    apply Forall_fmap. eapply Forall_impl; [exact Hq|].
    intros m [Hx Hy]. simpl.
    pose proof (clamp01_in_unit_interval (x m / width options)) as Cx.
    pose proof (clamp01_in_unit_interval (y m / height options)) as Cy.
    simpl in Cx, Cy. rewrite Hx in Cx. rewrite Hy in Cy. split; assumption. }
  split; [|split; [exact Hvalid|]].
  - apply Forall2_fmap_r, Forall_Forall2_diag, Forall_forall. intros m _. simpl.
    split; [reflexivity|]. split; [reflexivity|].
    split; apply clamp01_in_unit_interval.
  - intros Hw Hw0 Hh Hh0 Hm. apply Hvalid. eapply Forall_impl; [exact Hm|].
    intros m [Hx Hy]. split; apply div_not_nan; assumption.
Qed.

End Bounds.

(** ** Loops over pairs of indices *)

Section IndexPairs.

Lemma fold_left_map_arg {S T U : Type} (f : S -> U -> S) (g : T -> U) (l : list T) (acc : S) :
  fold_left f (map g l) acc = fold_left (fun a t => f a (g t)) l acc.
Proof. revert acc. induction l as [|t l IH]; intros acc; simpl; [reflexivity | apply IH]. Qed.

Lemma fold_left_flat_map {S T U : Type} (f : S -> U -> S) (g : T -> list U)
    (l : list T) (acc : S) :
  fold_left f (flat_map g l) acc = fold_left (fun a t => fold_left f (g t) a) l acc.
Proof.
  revert acc. induction l as [|t l IH]; intros acc; simpl; [reflexivity|].
  rewrite fold_left_app. apply IH.
Qed.

Lemma fold_left_pointwise {S T : Type} (f g : S -> T -> S) (l : list T) (acc : S) :
  (forall a t, f a t = g a t) -> fold_left f l acc = fold_left g l acc.
Proof.
  intros Hfg. revert acc. induction l as [|t l IH]; intros acc; simpl; [reflexivity|].
  rewrite Hfg. apply IH.
Qed.

(** A nested loop [for i] / [for j > i] is one loop over [index_pairs]. *)
Lemma nested_loop_index_pairs {S : Type} (body : nat -> nat -> S -> S) (n : nat) (acc : S) :
  fold_left (fun a i => fold_left (fun a j => body i j a) (inner_range n i) a) (seq 0 n) acc
  = fold_left (fun a ij => body (fst ij) (snd ij) a) (index_pairs n) acc.
Proof.
  unfold index_pairs. rewrite fold_left_flat_map.
  apply fold_left_pointwise. intros a i. rewrite fold_left_map_arg. reflexivity.
Qed.

Lemma elem_of_index_pairs (n i j : nat) : (i, j) ∈ index_pairs n <-> (i < j < n)%nat.
Proof.
  unfold index_pairs, inner_range. rewrite list_elem_of_In, in_flat_map. split.
  - intros (k & Hk & Hij). apply in_map_iff in Hij as (j' & [= <- <-] & Hj).
    apply in_seq in Hj. lia.
  - intros Hij. exists i. split; [apply in_seq; lia|].
    apply in_map_iff. exists j. split; [reflexivity|]. apply in_seq. lia.
Qed.

Lemma NoDup_pairs_from (n : nat) (firsts : list nat) :
  NoDup firsts -> NoDup (flat_map (fun i => map (pair i) (inner_range n i)) firsts).
Proof.
  induction 1 as [|i firsts Hi Hnd IH]; simpl; [constructor|].
  apply NoDup_app. split; [|split; [|exact IH]].
  - apply (NoDup_fmap_2 (pair i)), NoDup_seq.
  - intros [a b] Ha Hb. apply list_elem_of_In, in_map_iff in Ha as (j & [= <- <-] & _).
    apply list_elem_of_In, in_flat_map in Hb as (k & Hk & Hb).
    apply in_map_iff in Hb as (j' & [= <- <-] & _).
    apply Hi, list_elem_of_In, Hk.
Qed.

(** Every unordered pair of distinct indices occurs in [index_pairs] once. *)
Lemma NoDup_index_pairs (n : nat) : NoDup (index_pairs n).
Proof. apply NoDup_pairs_from, NoDup_seq. Qed.

End IndexPairs.

(** ** The identifier map *)

Section NodeMap.

Lemma nodeMap_fold_lookup (vs : list point) (m : gmap string point) (k : string) (v : point) :
  (forall k' v', m !! k' = Some v' -> id v' = k') ->
  fold_left (fun m node => <[id node := node]> m) vs m !! k = Some v ->
  id v = k /\ (v ∈ vs \/ m !! k = Some v).
Proof.
  revert m. induction vs as [|n vs IH]; intros m Hm Hl; simpl in Hl.
  - split; [apply Hm, Hl | right; exact Hl].
  - destruct (IH (<[id n := n]> m)) as [Hid Hin]; [|exact Hl|].
    + intros k' v' Hk'. destruct (decide (id n = k')) as [<-|Hne].
      * rewrite lookup_insert_eq in Hk'. congruence.
      * rewrite lookup_insert_ne in Hk' by assumption. apply Hm, Hk'.
    + split; [exact Hid|]. destruct Hin as [Hin|Hin].
      * left. apply elem_of_cons. right. exact Hin.
      * destruct (decide (id n = k)) as [<-|Hne].
        -- rewrite lookup_insert_eq in Hin. left. apply elem_of_cons. left. congruence.
        -- rewrite lookup_insert_ne in Hin by assumption. right. exact Hin.
Qed.

(** A vertex found under [k] is a vertex of the list and has identifier [k]. *)
Lemma nodeMap_of_lookup (vs : list point) (k : string) (v : point) :
  nodeMap_of vs !! k = Some v -> id v = k /\ v ∈ vs.
Proof.
  intros Hl. destruct (nodeMap_fold_lookup vs ∅ k v) as [Hid [Hin|Hin]];
    [intros k' v' Hk'; rewrite lookup_empty in Hk'; discriminate | exact Hl | | ].
  - split; assumption.
  - rewrite lookup_empty in Hin. discriminate.
Qed.

Lemma nodeMap_fold_is_Some (vs : list point) (m : gmap string point) (k : string) :
  is_Some (fold_left (fun m node => <[id node := node]> m) vs m !! k)
  <-> k ∈ map id vs \/ is_Some (m !! k).
Proof.
  revert m. induction vs as [|n vs IH]; intros m; simpl.
  - split; [auto|]. intros [Hk|Hk]; [inversion Hk | exact Hk].
  - rewrite IH. rewrite elem_of_cons.
    destruct (decide (id n = k)) as [<-|Hne].
    + rewrite lookup_insert_eq. split; [auto|]. intros _. right. eauto.
    + rewrite lookup_insert_ne by assumption. split.
      * intros [Hk|Hk]; auto.
      * intros [[Hk|Hk]|Hk]; auto. congruence.
Qed.

(** An identifier resolves exactly when it is the identifier of a vertex. *)
Lemma nodeMap_of_is_Some (vs : list point) (k : string) :
  is_Some (nodeMap_of vs !! k) <-> k ∈ map id vs.
Proof.
  unfold nodeMap_of. rewrite nodeMap_fold_is_Some, lookup_empty. split.
  - intros [Hk|Hk]; [exact Hk | destruct Hk; discriminate].
  - auto.
Qed.


End NodeMap.

(** ** The crossing test *)

Section Crossing.

Local Open Scope float_scope.

Lemma doEdgesCross_unfold (n1 n2 n3 n4 : point) :
  doEdgesCross n1 n2 n3 n4
  = negb (share_endpoint n1 n2 n3 n4)
    && ((det1 n1 n2 n3 n4 * det2 n1 n2 n3 n4 <? 0)
        && (det3 n1 n2 n3 n4 * det4 n1 n2 n3 n4 <? 0)).
Proof. unfold doEdgesCross. destruct (share_endpoint n1 n2 n3 n4); reflexivity. Qed.



Lemma det_of_point_segment (a b c d : float) :
  zero_or_nan (a * (c - c) - b * (d - d)).
Proof. apply sub_zero_or_nan; apply mul_zero_or_nan_r, sub_diag. Qed.

Lemma product_not_negative_l (p q : float) : zero_or_nan p -> (p * q <? 0) = false.
Proof. intros Hp. apply zero_or_nan_not_negative, mul_zero_or_nan_l, Hp. Qed.



(** A segment reduced to a point straddles nothing and is straddled by nothing. *)
Lemma point_segment_no_straddle (n1 n2 n3 n4 : point) :
  (n1 = n2 -> (det3 n1 n2 n3 n4 * det4 n1 n2 n3 n4 <? 0) = false)
  /\ (n3 = n4 -> (det1 n1 n2 n3 n4 * det2 n1 n2 n3 n4 <? 0) = false).
Proof.
  unfold det1, det2, det3, det4. split; intros ->;
    apply product_not_negative_l, det_of_point_segment.
Qed.

Lemma share_endpoint_true (n1 n2 n3 n4 : point) :
  share_endpoint n1 n2 n3 n4 = true
  <-> id n1 = id n3 \/ id n1 = id n4 \/ id n2 = id n3 \/ id n2 = id n4.
Proof.
  unfold share_endpoint. rewrite !orb_true_iff, !String.eqb_eq. tauto.
Qed.

Lemma share_endpoint_sym (n1 n2 n3 n4 : point) :
  share_endpoint n3 n4 n1 n2 = share_endpoint n1 n2 n3 n4.
Proof.
  unfold share_endpoint.
  rewrite (String.eqb_sym (id n3) (id n1)), (String.eqb_sym (id n3) (id n2)),
    (String.eqb_sym (id n4) (id n1)), (String.eqb_sym (id n4) (id n2)).
  destruct (String.eqb (id n1) (id n3)), (String.eqb (id n1) (id n4)),
    (String.eqb (id n2) (id n3)), (String.eqb (id n2) (id n4)); reflexivity.
Qed.

Lemma doEdgesCross_sym (n1 n2 n3 n4 : point) :
  doEdgesCross n3 n4 n1 n2 = doEdgesCross n1 n2 n3 n4.
Proof.
  rewrite !doEdgesCross_unfold, share_endpoint_sym.
  change (det1 n3 n4 n1 n2) with (det3 n1 n2 n3 n4).
  change (det2 n3 n4 n1 n2) with (det4 n1 n2 n3 n4).
  change (det3 n3 n4 n1 n2) with (det1 n1 n2 n3 n4).
  change (det4 n3 n4 n1 n2) with (det2 n1 n2 n3 n4).
  f_equal. apply andb_comm.
Qed.





End Crossing.

(** ** Symmetry and counting of crossings *)

Section CrossingCount.

Lemma crosses_sym (m : gmap string point) (e1 e2 : Edge) :
  crosses m e2 e1 = crosses m e1 e2.
Proof.
  unfold crosses.
  destruct (m !! source e1) as [n1|], (m !! target e1) as [n2|],
    (m !! source e2) as [n3|], (m !! target e2) as [n4|]; try reflexivity.
  apply doEdgesCross_sym.
Qed.

Lemma crosses_shared_endpoint (vs : list point) (e1 e2 : Edge) :
  share_endpoint_id e1 e2 -> crosses (nodeMap_of vs) e1 e2 = false.
Proof.
  intros Hs. unfold crosses.
  destruct (nodeMap_of vs !! source e1) as [n1|] eqn:H1; [|reflexivity].
  destruct (nodeMap_of vs !! target e1) as [n2|] eqn:H2; [|reflexivity].
  destruct (nodeMap_of vs !! source e2) as [n3|] eqn:H3; [|reflexivity].
  destruct (nodeMap_of vs !! target e2) as [n4|] eqn:H4; [|reflexivity].
  apply nodeMap_of_lookup in H1 as [I1 _], H2 as [I2 _], H3 as [I3 _], H4 as [I4 _].
  unfold doEdgesCross.
  replace (share_endpoint n1 n2 n3 n4) with true; [reflexivity|].
  symmetry. apply share_endpoint_true. rewrite I1, I2, I3, I4. exact Hs.
Qed.

Lemma crosses_self_loop (vs : list point) (e1 e2 : Edge) :
  source e1 = target e1 -> crosses (nodeMap_of vs) e1 e2 = false.
Proof.
  intros Hloop. unfold crosses. rewrite <- Hloop.
  destruct (nodeMap_of vs !! source e1) as [n1|]; [|reflexivity].
  destruct (nodeMap_of vs !! source e2) as [n3|]; [|reflexivity].
  destruct (nodeMap_of vs !! target e2) as [n4|]; [|reflexivity].
  rewrite doEdgesCross_unfold.
  destruct (point_segment_no_straddle n1 n1 n3 n4) as [Hp _].
  rewrite (Hp eq_refl), andb_false_r, andb_false_r. reflexivity.
Qed.

Lemma crossings_loop_count (vs : list point) (es : list Edge)
    (pairs : list (nat * nat)) (acc : nat) :
  fold_left (fun a ij => crossings_step (nodeMap_of vs) es (fst ij) (snd ij) a) pairs acc
  = (acc + length (List.filter (crossing_pair vs es) pairs))%nat.
Proof.
  revert acc. induction pairs as [|[i j] pairs IH]; intros acc; simpl; [lia|].
  rewrite IH. unfold crossings_step, crossing_pair. simpl.
  destruct (es !! i) as [edge1|]; [|lia].
  destruct (es !! j) as [edge2|]; [|lia].
  destruct (crosses (nodeMap_of vs) edge1 edge2); simpl; lia.
Qed.

(** C4. [crosses(e1, e2) = crosses(e2, e1)]; two edges that name a common
    endpoint never cross, an edge paired with itself and a self-loop
    included; and [calculateEdgeCrossings] is the number of pairs of indices
    [i < j] whose edges cross, every unordered pair of distinct indices
    being looked at once. *)
Theorem crossings_symmetric_and_counted_once (vs : list point) (es : list Edge)
    (e1 e2 : Edge) :
  crosses (nodeMap_of vs) e1 e2 = crosses (nodeMap_of vs) e2 e1
  /\ (share_endpoint_id e1 e2 -> crosses (nodeMap_of vs) e1 e2 = false)
  /\ crosses (nodeMap_of vs) e1 e1 = false
  /\ (source e1 = target e1 ->
      crosses (nodeMap_of vs) e1 e2 = false /\ crosses (nodeMap_of vs) e2 e1 = false)
  /\ calculateEdgeCrossings vs es
     = length (List.filter (crossing_pair vs es) (index_pairs (length es)))
  /\ NoDup (index_pairs (length es))
  /\ (forall i j, (i, j) ∈ index_pairs (length es) <-> (i < j < length es)%nat).
Proof.
  split; [symmetry; apply crosses_sym|].
  split; [apply crosses_shared_endpoint|].
  split; [apply crosses_shared_endpoint; left; reflexivity|].
  split.
  { intros Hloop. rewrite (crosses_sym _ e1 e2).
    split; apply crosses_self_loop, Hloop. }
  split.
  { unfold calculateEdgeCrossings.
    rewrite (nested_loop_index_pairs (crossings_step (nodeMap_of vs) es)).
    rewrite crossings_loop_count. reflexivity. }
  split; [apply NoDup_index_pairs | intros i j; apply elem_of_index_pairs].
Qed.

End CrossingCount.

(** ** Average distance of the connected pairs *)

Section AverageDistance.

Local Open Scope float_scope.

Lemma average_loop (vs : list point) (es : list Edge) (acc : float * nat) :
  fold_left (average_step (nodeMap_of vs)) es acc
  = (fold_left PrimFloat.add
       (map (fun p => distance (fst p) (snd p)) (resolvable_edges vs es)) (fst acc),
     (snd acc + length (resolvable_edges vs es))%nat).
Proof.
  revert acc. induction es as [|e es IH]; intros [total count]; simpl.
  - f_equal. lia.
  - rewrite IH. unfold average_step, resolvable_edges. simpl.
    destruct (nodeMap_of vs !! source e) as [s|]; [|reflexivity].
    destruct (nodeMap_of vs !! target e) as [t|]; [|reflexivity].
    simpl. f_equal. lia.
Qed.

(** The resolvable edges are those whose two endpoints are identifiers of
    vertices of the list; the others are left out. *)
Lemma resolvable_edges_length (vs : list point) (es : list Edge) :
  length (resolvable_edges vs es)
  = length (filter (fun e => source e ∈ map id vs /\ target e ∈ map id vs) es).
Proof.
  induction es as [|e es IH]; [reflexivity|].
  unfold resolvable_edges in *. simpl. rewrite filter_cons.
  destruct (decide (source e ∈ map id vs /\ target e ∈ map id vs)) as [[Hs Ht]|Hn].
  - apply nodeMap_of_is_Some in Hs as [s ->], Ht as [t ->]. simpl. f_equal. exact IH.
  - destruct (nodeMap_of vs !! source e) as [s|] eqn:Hs.
    + destruct (nodeMap_of vs !! target e) as [t|] eqn:Ht; [|exact IH].
      exfalso. apply Hn. split; apply nodeMap_of_is_Some; eauto.
    + exact IH.
Qed.

(** A resolvable edge resolves to vertices of the list. *)
Lemma resolvable_edges_in (vs : list point) (es : list Edge) :
  Forall (fun p => fst p ∈ vs /\ snd p ∈ vs) (resolvable_edges vs es).
Proof.
  apply Forall_forall. intros [s t] Hp. unfold resolvable_edges in Hp.
  apply list_elem_of_omap in Hp as (e & _ & He).
  destruct (nodeMap_of vs !! source e) as [s'|] eqn:Hs; [|discriminate].
  destruct (nodeMap_of vs !! target e) as [t'|] eqn:Ht; [|discriminate].
  injection He as <- <-.
  apply nodeMap_of_lookup in Hs as [_ Hs], Ht as [_ Ht]. split; assumption.
Qed.

(** The distance the two distance metrics compute, operation by
    operation. *)
Lemma distance_formula (a b : point) :
  distance a b
  = PrimFloat.sqrt ((x a - x b) * (x a - x b) + (y a - y b) * (y a - y b)).
Proof. reflexivity. Qed.


End AverageDistance.

(** ** Minimum distance of two vertices *)

Section MinimumDistance.

Local Open Scope float_scope.

Lemma minimum_loop (vs : list point) (pairs : list (nat * nat)) (acc : float) :
  fold_left (fun a ij => minimum_step vs (fst ij) (snd ij) a) pairs acc
  = fold_left JS.Math_min
      (omap (fun ij => match vs !! fst ij, vs !! snd ij with
                       | Some a, Some b => Some (distance a b)
                       | _, _ => None
                       end) pairs) acc.
Proof.
  revert acc. induction pairs as [|[i j] pairs IH]; intros acc; simpl; [reflexivity|].
  rewrite IH. unfold minimum_step. simpl.
  destruct (vs !! i) as [a|]; [|reflexivity].
  destruct (vs !! j) as [b|]; reflexivity.
Qed.

Lemma elem_of_pair_distances (vs : list point) (d : float) :
  d ∈ pair_distances vs
  <-> exists i j a b, (i < j)%nat /\ vs !! i = Some a /\ vs !! j = Some b
                      /\ d = distance a b.
Proof.
  unfold pair_distances. rewrite list_elem_of_omap. split.
  - intros ([i j] & Hij & Hd). apply elem_of_index_pairs in Hij. simpl in Hd.
    destruct (vs !! i) as [a|] eqn:Ha; [|discriminate].
    destruct (vs !! j) as [b|] eqn:Hb; [|discriminate].
    injection Hd as <-. exists i, j, a, b. repeat split; try assumption. lia.
  - intros (i & j & a & b & Hij & Ha & Hb & ->). exists (i, j). split.
    + apply elem_of_index_pairs. apply lookup_lt_Some in Hb. lia.
    + simpl. rewrite Ha, Hb. reflexivity.
Qed.

Lemma fold_min_spec (ds : list float) (acc : float) :
  is_nan acc = false -> Forall (fun d => is_nan d = false) ds ->
  let r := fold_left JS.Math_min ds acc in
  is_nan r = false /\ (r = acc \/ r ∈ ds)
  /\ (r <=? acc) = true /\ (forall d, d ∈ ds -> (r <=? d) = true).
Proof.
  revert acc. induction ds as [|d ds IH]; intros acc Hacc Hds; simpl.
  - split; [assumption|]. split; [left; reflexivity|].
    split; [apply leb_refl, Hacc|]. intros d Hd. inversion Hd.
  - apply Forall_cons in Hds as [Hd Hds].
    destruct (Math_min_cases acc d Hacc Hd) as (Hm & Hma & Hmd).
    assert (Hmn : is_nan (JS.Math_min acc d) = false) by (destruct Hm as [-> | ->]; assumption).
    destruct (IH (JS.Math_min acc d) Hmn Hds) as (Hr & Hin & Hle & Hall).
    split; [assumption|]. split; [|split].
    + destruct Hin as [Hin|Hin].
      * rewrite Hin. destruct Hm as [-> | ->]; [left; reflexivity|].
        right. apply elem_of_cons. left. reflexivity.
      * right. apply elem_of_cons. right. exact Hin.
    + eapply leb_trans; eassumption.
    + intros d' Hd'. apply elem_of_cons in Hd' as [->|Hd'].
      * eapply leb_trans; eassumption.
      * apply Hall, Hd'.
Qed.

Lemma infinity_leb (d : float) : (infinity <=? d) = true -> d = infinity.
Proof.
  rewrite FloatAxioms.leb_spec. change (Prim2SF infinity) with (S754_infinity false).
  intros Hle. apply Prim2SF_inj. change (Prim2SF infinity) with (S754_infinity false).
  destruct (Prim2SF d) as [s|[|]| |s m e]; try discriminate. reflexivity.
Qed.

(** The loop keeps the least of the distances it has seen. *)
Lemma fold_min_is_minimum (ds : list float) :
  ds <> [] -> Forall (fun d => is_nan d = false) ds ->
  is_minimum_of (fold_left JS.Math_min ds infinity) ds.
Proof.
  intros Hne Hds.
  destruct (fold_min_spec ds infinity eq_refl Hds) as (_ & Hin & _ & Hall).
  split; [|exact Hall].
  destruct Hin as [Hin|Hin]; [|exact Hin].
  destruct ds as [|d ds]; [congruence|].
  assert (Hd : d ∈ d :: ds) by (apply elem_of_cons; left; reflexivity).
  pose proof (Hall d Hd) as Hle. rewrite Hin in Hle.
  apply infinity_leb in Hle. rewrite Hin, <- Hle. exact Hd.
Qed.

Lemma pair_distances_not_nan (vs : list point) :
  Forall (fun v => is_finite (x v) = true /\ is_finite (y v) = true) vs ->
  Forall (fun d => is_nan d = false) (pair_distances vs).
Proof.
  intros Hvs. apply Forall_forall. intros d Hd.
  apply elem_of_pair_distances in Hd as (i & j & a & b & _ & Ha & Hb & ->).
  rewrite Forall_forall in Hvs.
  destruct (Hvs a) as [Hxa Hya]; [eapply list_elem_of_lookup_2, Ha|].
  destruct (Hvs b) as [Hxb Hyb]; [eapply list_elem_of_lookup_2, Hb|].
  apply distance_not_nan; assumption.
Qed.

(** Once NaN, the running minimum stays NaN. *)
Lemma fold_min_nan_acc (ds : list float) (acc : float) :
  is_nan acc = true -> fold_left JS.Math_min ds acc = nan.
Proof.
  revert acc. induction ds as [|d ds IH]; intros acc Hacc; simpl.
  - apply Prim2SF_inj. apply is_nan_spec in Hacc. rewrite Hacc. reflexivity.
  - apply IH. rewrite Math_min_nan by (left; exact Hacc). reflexivity.
Qed.

Lemma fold_min_nan (ds : list float) (acc : float) :
  Exists (fun d => is_nan d = true) ds -> is_nan (fold_left JS.Math_min ds acc) = true.
Proof.
  revert acc. induction ds as [|d ds IH]; intros acc Hex; [inversion Hex|].
  apply Exists_cons in Hex as [Hd|Hex]; simpl.
  - rewrite (fold_min_nan_acc ds (JS.Math_min acc d)); [reflexivity|].
    rewrite Math_min_nan by (right; exact Hd). reflexivity.
  - apply IH, Hex.
Qed.

(** C6. [calculateMinimumNodeDistance] is [Infinity] for fewer than two
    vertices.  With at least two, it runs [Math.min] over the distances
    [sqrt((xi - xj)^2 + (yi - yj)^2)] of all pairs of distinct vertices,
    adjacent or not, each computed in binary64: when none of these is NaN,
    as when all coordinates are finite, the result is one of them and is
    [<=] each of them; when one of them is NaN the result is NaN. *)
Theorem calculateMinimumNodeDistance_is_minimum (vs : list point) :
  let euclidean (a b : point) :=
    PrimFloat.sqrt ((x a - x b) * (x a - x b) + (y a - y b) * (y a - y b)) in
  calculateMinimumNodeDistance vs = fold_left JS.Math_min (pair_distances vs) infinity
  /\ (forall d, d ∈ pair_distances vs
        <-> exists i j a b, (i < j)%nat /\ vs !! i = Some a /\ vs !! j = Some b
                            /\ d = euclidean a b)
  /\ ((length vs < 2)%nat -> calculateMinimumNodeDistance vs = infinity)
  /\ ((2 <= length vs)%nat ->
      Forall (fun d => is_nan d = false) (pair_distances vs) ->
      is_minimum_of (calculateMinimumNodeDistance vs) (pair_distances vs))
  /\ (Forall (fun v => is_finite (x v) = true /\ is_finite (y v) = true) vs ->
      Forall (fun d => is_nan d = false) (pair_distances vs))
  /\ (Exists (fun d => is_nan d = true) (pair_distances vs) ->
      is_nan (calculateMinimumNodeDistance vs) = true)
  /\ ((2 <= length vs)%nat ->
      Forall (fun v => is_finite (x v) = true /\ is_finite (y v) = true) vs ->
      is_minimum_of (calculateMinimumNodeDistance vs) (pair_distances vs)).
Proof.
  intros euclidean.
  assert (Hloop : calculateMinimumNodeDistance vs
                  = fold_left JS.Math_min (pair_distances vs) infinity).
  { unfold calculateMinimumNodeDistance.
    rewrite (nested_loop_index_pairs (minimum_step vs)). apply minimum_loop. }
  assert (Hmin : (2 <= length vs)%nat ->
                 Forall (fun d => is_nan d = false) (pair_distances vs) ->
                 is_minimum_of (calculateMinimumNodeDistance vs) (pair_distances vs)).
  { intros Hge Hnan. rewrite Hloop. apply fold_min_is_minimum; [|exact Hnan].
    destruct vs as [|a [|b vs]]; simpl in Hge; try lia.
    intros Hnil.
    assert (Hd : distance a b ∈ pair_distances (a :: b :: vs)).
    { apply elem_of_pair_distances. exists 0%nat, 1%nat, a, b. repeat split. lia. }
    rewrite Hnil in Hd. inversion Hd. }
  split; [exact Hloop|]. split.
  { intros d. rewrite elem_of_pair_distances. split;
      intros (i & j & a & b & Hij & Ha & Hb & ->); exists i, j, a, b;
      repeat split; try assumption; reflexivity. }
  split.
  { intros Hlt. rewrite Hloop. destruct vs as [|a [|b vs]]; [reflexivity|reflexivity|].
    simpl in Hlt. lia. }
  split; [exact Hmin|]. split; [apply pair_distances_not_nan|]. split.
  - intros Hex. rewrite Hloop. apply fold_min_nan, Hex.
  - intros Hge Hfin. apply Hmin; [exact Hge | apply pair_distances_not_nan, Hfin].
Qed.

End MinimumDistance.

(** * The claims on concrete inputs *)

Section Runs.

Local Open Scope float_scope.

(** The literals of the defaults are the binary64 values nearest to them. *)
Example default_options_values :
  new_ForceDirectedLayout (A := float) no_options
  = mkOptions 800 600 300 (3 / 10) (228 / 10000) (4 / 10) (-30) 100 1.
Proof. vm_compute. reflexivity. Qed.

(** The scenarios of the tests. *)
Example diagonals_cross_once : calculateEdgeCrossings unit_square diagonals = 1%nat.
Proof. vm_compute. reflexivity. Qed.

Example parallel_sides_do_not_cross :
  calculateEdgeCrossings
    [mkNode "A" 0 0; mkNode "B" 1 0; mkNode "C" 0 1; mkNode "D" 1 1]
    [mkEdge "A" "B"; mkEdge "C" "D"] = 0%nat.
Proof. vm_compute. reflexivity. Qed.

Example average_of_two_unit_legs :
  calculateAverageDistance right_angle [mkEdge "A" "B"; mkEdge "A" "C"] = 1.
Proof. vm_compute. reflexivity. Qed.

Example minimum_of_single_vertex :
  calculateMinimumNodeDistance [mkNode "A" (1 / 2) (1 / 2)] = infinity.
Proof. vm_compute. reflexivity. Qed.

(** In binary64 scaling to the workspace and back is not always exact:
    7/997 does not come back from the default width. *)
Example scale_back_rounds :
  let v := 7 / 997 in
  (0 <=? v) = true /\ (v <=? 1) = true /\ (v * 800 / 800 =? v) = false.
Proof. vm_compute. repeat split. Qed.

(** With a NaN coordinate the minimum is NaN. *)
Example minimum_with_nan :
  calculateMinimumNodeDistance [mkNode "A" 0 0; mkNode "B" nan 0; mkNode "C" 1 0] = nan.
Proof. vm_compute. reflexivity. Qed.

(** C1, counterexample.  With [{ width: 0, iterations: 0 }] no tick is made
    and the vertex A at (0.5, 0.5), put at [0.5 * 0 = 0] in the workspace, is
    returned at [0 / 0]: its x coordinate is NaN, and [validateCoordinates]
    rejects the result. *)
Lemma optimizeLayout_bounds_counterexample :
  exists out h' a b,
    optimizeLayout (strict_engine float) (new_ForceDirectedLayout zero_width)
      sound_graph two_vertices = (Returned out, h')
    /\ read_nodes h' out = Some [a; b]
    /\ is_nan (x a) = true
    /\ in_unit_interval (x a) = false
    /\ validateCoordinates [a; b] = false.
Proof.
  eexists _, _, _, _. split; [vm_compute; reflexivity|].
  split; [vm_compute; reflexivity|]. repeat split; vm_compute; reflexivity.
Qed.

(** C1, witness: the default options on the two vertices. *)
Lemma optimizeLayout_bounds_witness :
  exists out h' outs,
    optimizeLayout (still_engine float) (new_ForceDirectedLayout no_options)
      sound_graph two_vertices = (Returned out, h')
    /\ read_nodes h' out = Some outs
    /\ validateCoordinates outs = true.
Proof.
  assert (Hrun : exists r,
             optimizeLayout (still_engine float) (new_ForceDirectedLayout no_options)
               sound_graph two_vertices = (Returned (fst r), snd r))
    by (eexists (_, _); vm_compute; reflexivity).
  destruct Hrun as [[out h'] Hrun]. simpl in Hrun.
  destruct (optimizeLayout_bounds _ _ _ _ _ _ Hrun)
    as (moved & h4 & outs & Hs & Hr & _ & _ & Hvalid).
  exists out, h', outs. split; [exact Hrun|]. split; [exact Hr|].
  apply Hvalid; try (vm_compute; reflexivity).
  vm_compute in Hs. injection Hs as <- _.
  repeat constructor.
Defined.

(** C2, witness: the identifiers A, B come back in this order. *)
Lemma optimizeLayout_preserves_identifiers_witness :
  exists out h' outs,
    optimizeLayout (strict_engine float) (new_ForceDirectedLayout no_options)
      sound_graph two_vertices = (Returned out, h')
    /\ read_nodes h' out = Some outs
    /\ map id outs = ["A"; "B"]%string.
Proof.
  assert (Hrun : exists r,
             optimizeLayout (strict_engine float) (new_ForceDirectedLayout no_options)
               sound_graph two_vertices = (Returned (fst r), snd r))
    by (eexists (_, _); vm_compute; reflexivity).
  destruct Hrun as [[out h'] Hrun]. simpl in Hrun.
  destruct (optimizeLayout_preserves_identifiers _ _ _ _ _ _
              strict_engine_keeps_ids Hrun)
    as (ins & outs & Hin & Hout & _ & _ & Hids & _).
  exists out, h', outs. split; [exact Hrun|]. split; [exact Hout|].
  rewrite Hids. vm_compute in Hin. injection Hin as <-. reflexivity.
Defined.


(** C4, witness: the two diagonals make one crossing, whichever comes first. *)
Lemma crossings_symmetric_and_counted_once_witness :
  crosses (nodeMap_of unit_square) (mkEdge "A" "B") (mkEdge "C" "D")
  = crosses (nodeMap_of unit_square) (mkEdge "C" "D") (mkEdge "A" "B")
  /\ crosses (nodeMap_of unit_square) (mkEdge "A" "B") (mkEdge "A" "B") = false
  /\ calculateEdgeCrossings unit_square diagonals = 1%nat.
Proof.
  destruct (crossings_symmetric_and_counted_once unit_square diagonals
              (mkEdge "A" "B") (mkEdge "C" "D"))
    as (Hsym & _ & Hself & _ & Hcount & _ & _).
  split; [exact Hsym|]. split; [exact Hself|].
  rewrite Hcount. vm_compute. reflexivity.
Defined.


(** C6, witness: in the unit square the least distance is a side, 1; among
    vertices at distances 5, 13 and [sqrt 68] it is 5. *)
Lemma calculateMinimumNodeDistance_is_minimum_witness :
  is_minimum_of (calculateMinimumNodeDistance unit_square) (pair_distances unit_square)
  /\ calculateMinimumNodeDistance unit_square = 1
  /\ calculateMinimumNodeDistance [] = infinity
  /\ is_minimum_of (calculateMinimumNodeDistance pythagorean_vertices)
       (pair_distances pythagorean_vertices)
  /\ calculateMinimumNodeDistance pythagorean_vertices = 5.
Proof.
  destruct (calculateMinimumNodeDistance_is_minimum unit_square)
    as (_ & _ & _ & _ & _ & _ & Hmin).
  destruct (calculateMinimumNodeDistance_is_minimum [])
    as (_ & _ & Hfew & _).
  destruct (calculateMinimumNodeDistance_is_minimum pythagorean_vertices)
    as (Hloop & _ & _ & _ & _ & _ & Hmin').
  split; [apply Hmin; [simpl; lia | repeat constructor]|].
  split; [vm_compute; reflexivity|].
  split; [apply Hfew; simpl; lia|].
  split; [apply Hmin'; [simpl; lia | repeat constructor]|].
  rewrite Hloop. vm_compute. reflexivity.
Defined.

(** C6, counterexample.  The vertices B and C are at distance 1, and with a
    third vertex whose abscissa is NaN the result is NaN.  The vertices
    (0, 0) and (2^600, 0) have finite coordinates and are at distance 2^600,
    and the result is [Infinity]: the square overflows.  The vertices (0, 0)
    and (2^-600, 0) lie in the unit square at distance 2^-600, and the result
    is 0: the square underflows. *)
Lemma calculateMinimumNodeDistance_counterexample :
  calculateMinimumNodeDistance [mkNode "B" 0 0; mkNode "C" 1 0] = 1
  /\ is_nan (calculateMinimumNodeDistance
               [mkNode "A" nan 0; mkNode "B" 0 0; mkNode "C" 1 0]) = true
  /\ is_finite 0x1p600 = true /\ (0x1p600 - 0 = 0x1p600)
  /\ calculateMinimumNodeDistance [mkNode "A" 0 0; mkNode "B" 0x1p600 0] = infinity
  /\ (0 <? 0x1p-600) = true /\ (0x1p-600 <=? 1) = true /\ (0x1p-600 - 0 = 0x1p-600)
  /\ calculateMinimumNodeDistance [mkNode "A" 0 0; mkNode "B" 0x1p-600 0] = 0.
Proof. vm_compute. repeat split. Qed.

(** C7 at the failing input: the edge A-Z has no vertex Z.  It is handed to
    the engine with the others, and an engine whose link force rejects an
    endpoint that names no node, as that of d3-force does, makes
    [optimizeLayout] throw. *)
Lemma optimizeLayout_dangling_edge_throws :
  fst (optimizeLayout (strict_engine float) (new_ForceDirectedLayout no_options)
         dangling_graph two_vertices)
  = Thrown (EngineError "node not found: Z")
  /\ exists ns ls h2,
       prepare (new_ForceDirectedLayout (A := float) no_options) dangling_graph two_vertices
       = (Returned (ns, ls), h2)
       /\ read_edges h2 ls = Some [mkEdge "A" "B"; mkEdge "A" "Z"].
Proof.
  split; [vm_compute; reflexivity|].
  eexists _, _, _. split; vm_compute; reflexivity.
Qed.

(** C8, counterexample.  With [{ width: 0, iterations: 0 }] no configuration
    error is raised: the call returns, with a NaN coordinate. *)
Lemma optimizeLayout_validation_counterexample :
  width (new_ForceDirectedLayout zero_width) = 0
  /\ exists out h' a b,
       optimizeLayout (strict_engine float) (new_ForceDirectedLayout zero_width)
         sound_graph two_vertices = (Returned out, h')
       /\ read_nodes h' out = Some [a; b]
       /\ is_nan (x a) = true.
Proof.
  split; [vm_compute; reflexivity|]. eexists _, _, _, _.
  split; [vm_compute; reflexivity|]. split; vm_compute; reflexivity.
Qed.

(** C8, witness: the same run, through the theorem. *)
Lemma optimizeLayout_no_validation_witness :
  width (new_ForceDirectedLayout zero_width) = 0
  /\ exists out h',
       optimizeLayout (still_engine float) (new_ForceDirectedLayout zero_width)
         sound_graph two_vertices = (Returned out, h').
Proof.
  destruct (optimizeLayout_no_validation (still_engine float) zero_width
              sound_graph two_vertices
              [mkNode "A" (JS.of_Q (1 # 2)) (JS.of_Q (1 # 2));
               mkNode "B" (JS.of_Q (1 # 4)) (JS.of_Q (3 # 4))]
              [mkEdge "A" "B"]
              still_engine_keeps_ids eq_refl eq_refl)
    as (Hw & _ & ns & ls & h2 & _ & Hrun).
  split; [exact Hw|]. exact Hrun.
Defined.

(** C9, witness: the run on the graph with the dangling edge throws, and the
    two input vertices and the two input edges are read as before. *)
Lemma optimizeLayout_leaves_input_witness :
  exists r h',
    optimizeLayout (strict_engine float) (new_ForceDirectedLayout no_options)
      dangling_graph two_vertices = (r, h')
    /\ read_nodes h' (nodes dangling_graph) = read_nodes two_vertices (nodes dangling_graph)
    /\ read_edges h' (edges dangling_graph) = read_edges two_vertices (edges dangling_graph)
    /\ keeps_objects two_vertices h'.
Proof.
  eexists _, _. split; [apply surjective_pairing|].
  destruct (optimizeLayout_leaves_input (strict_engine float)
              (new_ForceDirectedLayout no_options) dangling_graph two_vertices
              [mkNode "A" (JS.of_Q (1 # 2)) (JS.of_Q (1 # 2));
               mkNode "B" (JS.of_Q (1 # 4)) (JS.of_Q (3 # 4))]
              [mkEdge "A" "B"; mkEdge "A" "Z"] _ _
              strict_engine_frames eq_refl eq_refl (surjective_pairing _))
    as (Hkeep & Hn & He & _).
  split; [exact Hn|]. split; [exact He|]. exact Hkeep.
Defined.

End Runs.

Section ExactRuns.

Local Open Scope Q_scope.

(** C10, witness: no iteration, in exact arithmetic.  The vertices A and
    B, inside the unit square, come back where they were; the vertex C at
    (3/2, -1/2) comes back at (1, 0). *)
Lemma optimizeLayout_zero_iterations_witness :
  exists out h',
    optimizeLayout (strict_engine Q) (new_ForceDirectedLayout no_iteration)
      three_graph three_vertices_exact = (Returned out, h')
    /\ exists a b c,
         read_nodes h' out = Some [a; b; c]
         /\ id a = "A"%string /\ x a == 1 # 2 /\ y a == 1 # 2
         /\ id b = "B"%string /\ x b == 1 # 4 /\ y b == 3 # 4
         /\ id c = "C"%string /\ x c == 1 /\ y c == 0.
Proof.
  assert (Hw : 0 < width (new_ForceDirectedLayout (A := Q) no_iteration)) by reflexivity.
  assert (Hh : 0 < height (new_ForceDirectedLayout (A := Q) no_iteration)) by reflexivity.
  assert (Hends : forall e, e ∈ [mkEdge "A" "B"] ->
            source e ∈ map id (node_objs three_vertices_exact)
            /\ target e ∈ map id (node_objs three_vertices_exact)).
  { intros e He. apply list_elem_of_singleton in He as ->.
    split; simpl; [left | right; left]. }
  destruct (optimizeLayout_zero_iterations (strict_engine Q)
              (new_ForceDirectedLayout no_iteration) three_graph three_vertices_exact
              (node_objs three_vertices_exact) [mkEdge "A" "B"]
              strict_engine_settles eq_refl Hw Hh eq_refl eq_refl Hends)
    as (out & h' & Hrun & _ & outs & Hout & Hall).
  exists out, h'. split; [exact Hrun|].
  apply Forall2_cons_inv_l in Hall as (a & outs1 & (Ia & Xa & Ya & _) & Hall & ->).
  apply Forall2_cons_inv_l in Hall as (b & outs2 & (Ib & Xb & Yb & _) & Hall & ->).
  apply Forall2_cons_inv_l in Hall
    as (c & outs3 & (Ic & _ & _ & (_ & _ & _ & Xc) & (_ & Yc & _)) & Hall & ->).
  apply Forall2_nil_inv_l in Hall as ->.
  exists a, b, c. split; [exact Hout|].
  simpl in *. repeat split; try assumption;
    first [ apply Xa; split; discriminate | apply Ya; split; discriminate
          | apply Xb; split; discriminate | apply Yb; split; discriminate
          | apply Xc; reflexivity | apply Yc; reflexivity ].
Defined.

End ExactRuns.

(** * Further properties of the code *)

(** ** The crossing count as a property of the list of edges *)

Section EdgeList.

Implicit Types (m : gmap string point) (es rest : list Edge).

(** A loop over the indices of a list that looks each element up is a loop
    over the list. *)
Lemma fold_left_seq_lookup {S T : Type} (f : S -> T -> S) (pre l : list T) (acc : S) :
  fold_left (fun a j => match (pre ++ l) !! j with Some v => f a v | None => a end)
            (seq (length pre) (length l)) acc
  = fold_left f l acc.
Proof.
  revert pre acc. induction l as [|v l IH]; intros pre acc; [reflexivity|].
  simpl. rewrite list_lookup_middle by reflexivity.
  specialize (IH (pre ++ [v]) (f acc v)).
  rewrite <- app_assoc, length_app in IH. simpl in IH.
  rewrite Nat.add_1_r in IH. exact IH.
Qed.

Lemma count_loop (f : Edge -> bool) es (acc : nat) :
  fold_left (fun a e => if f e then S a else a) es acc
  = (acc + length (List.filter f es))%nat.
Proof.
  revert acc. induction es as [|e es IH]; intros acc; simpl; [lia|].
  rewrite IH. destruct (f e); simpl; lia.
Qed.

(** The turns of the inner loop for the first edge. *)
Lemma crossings_first_row m (e : Edge) rest (acc : nat) :
  fold_left (fun a j => crossings_step m (e :: rest) 0 j a)
            (inner_range (S (length rest)) 0) acc
  = (acc + length (List.filter (crosses m e) rest))%nat.
Proof.
  unfold inner_range. replace (S (length rest) - 1)%nat with (length rest) by lia.
  rewrite <- seq_shift, fold_left_map_arg, <- count_loop.
  rewrite <- (fold_left_seq_lookup (fun a e2 => if crosses m e e2 then S a else a) [] rest).
  apply fold_left_pointwise. intros a j. unfold crossings_step. simpl.
  destruct (rest !! j); reflexivity.
Qed.

(** The turns of the outer loop after the first are the loop on the rest. *)
Lemma crossings_later_rows m (e : Edge) rest (acc : nat) :
  fold_left
    (fun a i => fold_left (fun a j => crossings_step m (e :: rest) i j a)
                          (inner_range (S (length rest)) i) a)
    (seq 1 (length rest)) acc
  = fold_left
      (fun a i => fold_left (fun a j => crossings_step m rest i j a)
                            (inner_range (length rest) i) a)
      (seq 0 (length rest)) acc.
Proof.
  rewrite <- seq_shift, fold_left_map_arg.
  apply fold_left_pointwise. intros a i. unfold inner_range.
  replace (S (length rest) - S (S i))%nat with (length rest - S i)%nat by lia.
  rewrite <- (seq_shift _ (S i)), fold_left_map_arg.
  apply fold_left_pointwise. intros a' j. reflexivity.
Qed.

Lemma crossings_loop_of m es (acc : nat) :
  fold_left
    (fun a i => fold_left (fun a j => crossings_step m es i j a)
                          (inner_range (length es) i) a)
    (seq 0 (length es)) acc
  = (acc + crossings_of m es)%nat.
Proof.
  revert acc. induction es as [|e rest IH]; intros acc; [simpl; lia|].
  change (length (e :: rest)) with (S (length rest)).
  rewrite <- cons_seq. cbn [fold_left].
  rewrite crossings_first_row, crossings_later_rows, IH. simpl. lia.
Qed.

(** The nested loop counts the crossings of each edge with the later ones. *)
Lemma calculateEdgeCrossings_of (vs : list point) es :
  calculateEdgeCrossings vs es = crossings_of (nodeMap_of vs) es.
Proof. unfold calculateEdgeCrossings. rewrite crossings_loop_of. reflexivity. Qed.

Lemma filter_length_Permutation (f : Edge -> bool) es es' :
  es ≡ₚ es' -> length (List.filter f es) = length (List.filter f es').
Proof.
  induction 1 as [|e l l' _ IH|e1 e2 l|l1 l2 l3 _ IH1 _ IH2]; simpl.
  - reflexivity.
  - destruct (f e); simpl; congruence.
  - destruct (f e1), (f e2); reflexivity.
  - congruence.
Qed.

Lemma crossings_of_Permutation m es es' :
  es ≡ₚ es' -> crossings_of m es = crossings_of m es'.
Proof.
  induction 1 as [|e l l' Hp IH|e1 e2 l|l1 l2 l3 _ IH1 _ IH2]; simpl.
  - reflexivity.
  - rewrite IH, (filter_length_Permutation _ _ _ Hp). reflexivity.
  - rewrite (crosses_sym m e1 e2).
    destruct (crosses m e1 e2); simpl; lia.
  - congruence.
Qed.

(** An edge that crosses another one has both endpoints in the map. *)
Lemma crosses_resolves m (e1 e2 : Edge) :
  crosses m e1 e2 = true -> resolves m e1 = true /\ resolves m e2 = true.
Proof.
  unfold crosses, resolves.
  destruct (m !! source e1), (m !! target e1), (m !! source e2), (m !! target e2);
    try discriminate.
  split; reflexivity.
Qed.

Lemma filter_length_within (f g : Edge -> bool) es :
  (forall e, f e = true -> g e = true) ->
  length (List.filter f (List.filter g es)) = length (List.filter f es).
Proof.
  intros Hfg. induction es as [|e es IH]; [reflexivity|]. simpl.
  destruct (g e) eqn:Hg; simpl.
  - destruct (f e); simpl; congruence.
  - destruct (f e) eqn:Hf; [|exact IH]. apply Hfg in Hf. congruence.
Qed.

Lemma crosses_unresolved m (e : Edge) es :
  resolves m e = false -> List.filter (crosses m e) es = [].
Proof.
  intros Hr. induction es as [|e' es IH]; [reflexivity|]. simpl.
  destruct (crosses m e e') eqn:Hc; [|exact IH].
  apply crosses_resolves in Hc as [Hc _]. congruence.
Qed.

Lemma crossings_of_resolved m es :
  crossings_of m (List.filter (resolves m) es) = crossings_of m es.
Proof.
  induction es as [|e es IH]; [reflexivity|]. simpl.
  destruct (resolves m e) eqn:Hr; simpl.
  - rewrite IH. f_equal. apply filter_length_within.
    intros e' He'. apply (crosses_resolves m e e'), He'.
  - rewrite IH, (crosses_unresolved m e es Hr). reflexivity.
Qed.

Lemma filter_length_le (f : Edge -> bool) es :
  (length (List.filter f es) <= length es)%nat.
Proof.
  induction es as [|e es IH]; simpl; [lia|]. destruct (f e); simpl; lia.
Qed.

Lemma crossings_of_bound m es :
  (2 * crossings_of m es <= length es * (length es - 1))%nat.
Proof.
  induction es as [|e es IH]; simpl; [lia|].
  pose proof (filter_length_le (crosses m e) es) as Hle.
  rewrite Nat.sub_0_r. nia.
Qed.

End EdgeList.

Section EdgeListProperties.

(** X1. The number of crossings does not depend on the order of the edges
    in the array: two arrays with the same edges, in any order, have the
    same count. *)
Theorem calculateEdgeCrossings_edge_order (vs : list point) (es es' : list Edge) :
  es ≡ₚ es' -> calculateEdgeCrossings vs es = calculateEdgeCrossings vs es'.
Proof.
  intros Hp. rewrite !calculateEdgeCrossings_of. apply crossings_of_Permutation, Hp.
Qed.

(** X1, witness: the two diagonals of the unit square, in both orders. *)
Lemma calculateEdgeCrossings_edge_order_witness :
  diagonals ≡ₚ [mkEdge "C" "D"; mkEdge "A" "B"]
  /\ calculateEdgeCrossings unit_square diagonals
     = calculateEdgeCrossings unit_square [mkEdge "C" "D"; mkEdge "A" "B"].
Proof.
  assert (Hp : diagonals ≡ₚ [mkEdge "C" "D"; mkEdge "A" "B"]) by apply perm_swap.
  split; [exact Hp|]. apply (calculateEdgeCrossings_edge_order unit_square _ _ Hp).
Defined.

(** X2. Edges with an endpoint that names no vertex do not take part in the
    count: removing them from the array leaves the number of crossings as it
    is, and with [k] edges whose endpoints both resolve there are at most
    [k (k - 1) / 2] crossings, so none with fewer than two such edges. *)
Theorem calculateEdgeCrossings_skips_unresolved (vs : list point) (es : list Edge) :
  let resolved := List.filter (resolves (nodeMap_of vs)) es in
  calculateEdgeCrossings vs es = calculateEdgeCrossings vs resolved
  /\ (2 * calculateEdgeCrossings vs es <= length resolved * (length resolved - 1))%nat
  /\ ((length resolved < 2)%nat -> calculateEdgeCrossings vs es = O)
  /\ forall e, resolves (nodeMap_of vs) e = true
               <-> source e ∈ map id vs /\ target e ∈ map id vs.
Proof.
  intros resolved.
  assert (Heq : calculateEdgeCrossings vs es = calculateEdgeCrossings vs resolved).
  { rewrite !calculateEdgeCrossings_of. symmetry. apply crossings_of_resolved. }
  assert (Hle : (2 * calculateEdgeCrossings vs es
                 <= length resolved * (length resolved - 1))%nat).
  { rewrite Heq, calculateEdgeCrossings_of. apply crossings_of_bound. }
  split; [exact Heq|]. split; [exact Hle|]. split.
  - intros Hfew. destruct (length resolved) as [|[|k]]; simpl in Hle; lia.
  - intros e. rewrite <- !nodeMap_of_is_Some. unfold resolves.
    destruct (nodeMap_of vs !! source e), (nodeMap_of vs !! target e); split;
      try discriminate; try (intros _; split; eauto); try reflexivity;
      intros [[? [=]] [? [=]]].
Qed.

(** X2, on an input: of the two legs of a right angle and an edge to a
    vertex that does not exist, the two legs resolve. *)
Lemma calculateEdgeCrossings_skips_unresolved_witness :
  List.filter (resolves (nodeMap_of right_angle)) sides_and_stray
  = [mkEdge "A" "B"; mkEdge "A" "C"]
  /\ calculateEdgeCrossings right_angle sides_and_stray
     = calculateEdgeCrossings right_angle [mkEdge "A" "B"; mkEdge "A" "C"].
Proof.
  destruct (calculateEdgeCrossings_skips_unresolved right_angle sides_and_stray)
    as (Heq & _).
  split; [vm_compute; reflexivity | exact Heq].
Defined.

End EdgeListProperties.

(** ** Signs of the distances *)

Section SignedRounding.

Variables prec emax : Z.

Lemma SFmul_square_nonneg (a : spec_float) : nonneg_or_nan (SFmul prec emax a a).
Proof.
  pose proof (SFmul_square prec emax a) as Hs.
  destruct a as [s|s| |s m e]; try exact I;
    specialize (Hs ltac:(discriminate)); unfold nonneg_or_nan;
    destruct (SFmul prec emax _ _); solve [exact Hs | exact I].
Qed.

Lemma signed_nonneg_or_nan (f : spec_float) : signed_as false f -> nonneg_or_nan f.
Proof. destruct f; simpl; trivial. Qed.

Lemma SFadd_nonneg_or_nan (a b : spec_float) :
  nonneg_or_nan a -> nonneg_or_nan b -> nonneg_or_nan (SFadd prec emax a b).
Proof.
  destruct a as [s1|s1| |s1 m1 e1], b as [s2|s2| |s2 m2 e2]; intros Ha Hb;
    try exact I; apply signed_nonneg_or_nan, SFadd_nonneg; assumption.
Qed.

Lemma SFsqrt_nonneg_or_nan (a : spec_float) :
  nonneg_or_nan a -> nonneg_or_nan (SFsqrt prec emax a).
Proof.
  destruct a as [s|s| |s m e]; intros Ha; try exact I;
    apply signed_nonneg_or_nan, SFsqrt_nonneg; assumption.
Qed.

Lemma SFdiv_nonneg_or_nan (a b : spec_float) :
  nonneg_or_nan a -> nonneg_or_nan b -> nonneg_or_nan (SFdiv prec emax a b).
Proof.
  destruct a as [s1|s1| |s1 m1 e1], b as [s2|s2| |s2 m2 e2]; simpl;
    try (intros; exact I); try (intros -> ->; reflexivity).
  intros -> ->. simpl.
  destruct (SFdiv_core_binary prec emax (Z.pos m1) e1 (Z.pos m2) e2) as [[mz ez] lz] eqn:Hd.
  assert (Hm : (0 <= mz)%Z).
  { unfold SFdiv_core_binary in Hd.
    match type of Hd with context [Z.div_eucl ?m' (Z.pos m2)] =>
      assert (Hm' : (0 <= m')%Z);
      [ | pose proof (Z.div_pos m' (Z.pos m2) Hm' eq_refl) as Hq;
          unfold Z.div in Hq; destruct (Z.div_eucl m' (Z.pos m2)) as [q r] ]
    end.
    { match goal with |- (0 <= match ?s with _ => _ end)%Z => destruct s end;
        try lia. apply Z.shiftl_nonneg. lia. }
    injection Hd as <- _ _. exact Hq. }
  pose proof (binary_round_aux_signed prec emax false mz ez lz Hm) as Hs.
  unfold nonneg_or_nan. destruct (binary_round_aux prec emax false mz ez lz);
    solve [exact Hs | exact I].
Qed.

End SignedRounding.

Section DistanceSign.

Local Open Scope float_scope.

(** A counter holds a number that is not negative. *)
Lemma of_nat_nonneg (n : nat) : signed_as false (Prim2SF (JS.of_nat n)).
Proof.
  unfold JS.of_nat. rewrite of_uint63_spec.
  pose proof (Uint63.to_Z_bounded (Uint63.of_Z (Z.of_nat n))) as [Hlo _].
  destruct (Uint63.to_Z (Uint63.of_Z (Z.of_nat n))) as [|p|p]; simpl.
  - reflexivity.
  - apply binary_round_signed.
  - lia.
Qed.

Lemma nonneg_not_below_zero (f : float) : nonneg_or_nan (Prim2SF f) -> (f <? 0) = false.
Proof.
  rewrite FloatAxioms.ltb_spec. change (Prim2SF 0) with (S754_zero false).
  unfold nonneg_or_nan, SFltb.
  destruct (Prim2SF f) as [s|s| |s m e]; simpl; try reflexivity; intros ->; reflexivity.
Qed.

Lemma nonneg_above_zero (f : float) :
  nonneg_or_nan (Prim2SF f) -> is_nan f = false -> (0 <=? f) = true.
Proof.
  rewrite FloatAxioms.leb_spec, is_nan_false. change (Prim2SF 0) with (S754_zero false).
  unfold nonneg_or_nan, SFleb.
  destruct (Prim2SF f) as [s|s| |s m e]; simpl; try congruence; intros -> _; reflexivity.
Qed.

(** Whatever the coordinates, a distance is NaN or not negative. *)
Lemma distance_nonneg_or_nan (a b : point) : nonneg_or_nan (Prim2SF (distance a b)).
Proof.
  unfold distance, JS.Math_sqrt, JS.Math_pow2.
  rewrite FloatAxioms.sqrt_spec, FloatAxioms.add_spec, !FloatAxioms.mul_spec.
  apply SFsqrt_nonneg_or_nan, SFadd_nonneg_or_nan; apply SFmul_square_nonneg.
Qed.

Lemma Math_min_nonneg_or_nan (a b : float) :
  nonneg_or_nan (Prim2SF a) -> nonneg_or_nan (Prim2SF b) ->
  nonneg_or_nan (Prim2SF (JS.Math_min a b)).
Proof.
  intros Ha Hb. unfold JS.Math_min.
  destruct (is_nan a || is_nan b); [exact I|].
  destruct (a <? b); [exact Ha|]. destruct (b <? a); [exact Hb|].
  destruct (get_sign a); assumption.
Qed.

Lemma average_loop_nonneg (m : gmap string point) (es : list Edge) (acc : float * nat) :
  nonneg_or_nan (Prim2SF (fst acc)) ->
  nonneg_or_nan (Prim2SF (fst (fold_left (average_step m) es acc))).
Proof.
  revert acc. induction es as [|e es IH]; intros acc Hacc; [exact Hacc|].
  simpl. apply IH. unfold average_step.
  destruct (m !! source e) as [s|]; [|exact Hacc].
  destruct (m !! target e) as [t|]; [|exact Hacc].
  simpl. rewrite FloatAxioms.add_spec.
  apply SFadd_nonneg_or_nan; [exact Hacc | apply distance_nonneg_or_nan].
Qed.

Lemma calculateAverageDistance_nonneg_or_nan (vs : list point) (es : list Edge) :
  nonneg_or_nan (Prim2SF (calculateAverageDistance vs es)).
Proof.
  unfold calculateAverageDistance.
  pose proof (average_loop_nonneg (nodeMap_of vs) es (0, O) eq_refl) as Hsum.
  destruct (fold_left (average_step (nodeMap_of vs)) es (0, O)) as [total count].
  simpl in Hsum. destruct (0 <? count)%nat; [|reflexivity].
  rewrite FloatAxioms.div_spec. apply SFdiv_nonneg_or_nan; [exact Hsum|].
  pose proof (of_nat_nonneg count) as Hc.
  unfold nonneg_or_nan. destruct (Prim2SF (JS.of_nat count)); solve [exact Hc | exact I].
Qed.

(** The nested loop of [calculateMinimumNodeDistance] is one loop over the
    distances of the pairs. *)
Lemma minimum_loop_pairs (vs : list point) :
  calculateMinimumNodeDistance vs = fold_left JS.Math_min (pair_distances vs) infinity.
Proof.
  unfold calculateMinimumNodeDistance.
  rewrite (nested_loop_index_pairs (minimum_step vs)). apply minimum_loop.
Qed.

Lemma fold_min_nonneg_or_nan (ds : list float) (acc : float) :
  nonneg_or_nan (Prim2SF acc) -> Forall (fun d => nonneg_or_nan (Prim2SF d)) ds ->
  nonneg_or_nan (Prim2SF (fold_left JS.Math_min ds acc)).
Proof.
  revert acc. induction ds as [|d ds IH]; intros acc Hacc Hds; [exact Hacc|].
  apply Forall_cons in Hds as [Hd Hds]. simpl.
  apply IH; [apply Math_min_nonneg_or_nan; assumption | exact Hds].
Qed.

Lemma calculateMinimumNodeDistance_nonneg_or_nan (vs : list point) :
  nonneg_or_nan (Prim2SF (calculateMinimumNodeDistance vs)).
Proof.
  rewrite minimum_loop_pairs. apply fold_min_nonneg_or_nan; [reflexivity|].
  apply Forall_forall. intros d Hd.
  apply elem_of_pair_distances in Hd as (i & j & a & b & _ & _ & _ & ->).
  apply distance_nonneg_or_nan.
Qed.

Lemma calculateMinimumNodeDistance_not_nan (vs : list point) :
  Forall (fun v => is_finite (x v) = true /\ is_finite (y v) = true) vs ->
  is_nan (calculateMinimumNodeDistance vs) = false.
Proof.
  intros Hfin. rewrite minimum_loop_pairs.
  apply (fold_min_spec (pair_distances vs) infinity eq_refl).
  apply pair_distances_not_nan, Hfin.
Qed.

End DistanceSign.

(** ** Counters as binary64 numbers *)

Section Counters.

Lemma digits2_pos_iter (p k : positive) :
  digits2_pos (Pos.iter xO p k) = (digits2_pos p + k)%positive.
Proof.
  induction k as [|k IH] using Pos.peano_ind.
  - simpl. lia.
  - rewrite Pos.iter_succ. simpl. rewrite IH. lia.
Qed.

Lemma digits2_pos_bound (p : positive) (n : nat) :
  Z.pos p < 2 ^ Z.of_nat n -> Z.pos (digits2_pos p) <= Z.of_nat n.
Proof.
  revert n. induction p as [p IH|p IH|]; intros n Hp; simpl.
  - destruct n as [|n]; [simpl in Hp; lia|].
    rewrite Nat2Z.inj_succ, Z.pow_succ_r in Hp by lia.
    specialize (IH n ltac:(lia)). lia.
  - destruct n as [|n]; [simpl in Hp; lia|].
    rewrite Nat2Z.inj_succ, Z.pow_succ_r in Hp by lia.
    specialize (IH n ltac:(lia)). lia.
  - destruct n as [|n]; [simpl in Hp; lia|]. lia.
Qed.

(** A mantissa of 53 digits with an exponent in range is kept as it is. *)
Lemma binary_round_aux_exact (mz : positive) (ez : Z) :
  Z.pos (digits2_pos mz) = 53 -> -1074 <= ez <= 971 ->
  binary_round_aux prec emax false (Z.pos mz) ez loc_Exact = S754_finite false mz ez.
Proof.
  intros Hd He. unfold binary_round_aux, shr_fexp. simpl Zdigits2. rewrite Hd.
  replace (fexp prec emax (53 + ez) - ez) with 0
    by (unfold fexp, SpecFloat.emin, prec, emax; lia).
  simpl. rewrite Hd.
  replace (fexp prec emax (53 + ez) - ez) with 0
    by (unfold fexp, SpecFloat.emin, prec, emax; lia).
  simpl. replace (ez <=? emax - prec) with true; [reflexivity|].
  symmetry. apply Z.leb_le. unfold emax, prec. lia.
Qed.

Lemma binary_round_small (p : positive) :
  Z.pos p < 2 ^ 53 ->
  exists m e, binary_round prec emax false p 0 = S754_finite false m e.
Proof.
  intros Hp. pose proof (digits2_pos_bound p 53 Hp) as Hd.
  unfold binary_round, shl_align.
  replace (fexp prec emax (Z.pos (digits2_pos p) + 0) - 0)
    with (Z.pos (digits2_pos p) - 53)
    by (unfold fexp, SpecFloat.emin, prec, emax; lia).
  replace (fexp prec emax (Z.pos (digits2_pos p) + 0))
    with (Z.pos (digits2_pos p) - 53)
    by (unfold fexp, SpecFloat.emin, prec, emax; lia).
  destruct (Z.pos (digits2_pos p) - 53) as [|k|k] eqn:Hk; [|lia|].
  - eexists _, _. apply binary_round_aux_exact; lia.
  - eexists _, _. apply binary_round_aux_exact; [rewrite digits2_pos_iter|]; lia.
Qed.

(** A positive count below [2^53] is a positive finite number. *)
Lemma of_nat_finite (n : nat) :
  (0 < n)%nat -> Z.of_nat n < 2 ^ 53 ->
  exists m e, Prim2SF (JS.of_nat n) = S754_finite false m e.
Proof.
  intros Hpos Hn. unfold JS.of_nat. rewrite of_uint63_spec, Uint63.of_Z_spec.
  assert (Hw : 2 ^ 53 < wB) by reflexivity.
  rewrite Z.mod_small by lia.
  destruct (Z.of_nat n) as [|p|p] eqn:Ep; [lia| |lia].
  apply binary_round_small, Hn.
Qed.

Lemma sum_signed (ds : list float) (acc : float) :
  Forall (fun d => signed_as false (Prim2SF d)) ds -> signed_as false (Prim2SF acc) ->
  signed_as false (Prim2SF (fold_left PrimFloat.add ds acc)).
Proof.
  revert acc. induction ds as [|d ds IH]; intros acc Hds Hacc; [exact Hacc|].
  apply Forall_cons in Hds as [Hd Hds]. simpl. apply IH; [exact Hds|].
  rewrite FloatAxioms.add_spec. apply SFadd_nonneg; assumption.
Qed.

Lemma distance_signed (a b : point) :
  is_finite (x a) = true -> is_finite (y a) = true ->
  is_finite (x b) = true -> is_finite (y b) = true ->
  signed_as false (Prim2SF (distance a b)).
Proof.
  intros Hxa Hya Hxb Hyb.
  pose proof (distance_not_nan a b Hxa Hya Hxb Hyb) as Hn. apply is_nan_false in Hn.
  pose proof (distance_nonneg_or_nan a b) as Hs. unfold nonneg_or_nan in Hs.
  destruct (Prim2SF (distance a b)); solve [exact Hs | congruence].
Qed.

Lemma resolvable_edges_le (vs : list point) (es : list Edge) :
  (length (resolvable_edges vs es) <= length es)%nat.
Proof.
  rewrite resolvable_edges_length. apply length_filter.
Qed.

Lemma calculateAverageDistance_not_nan (vs : list point) (es : list Edge) :
  Forall (fun v => is_finite (x v) = true /\ is_finite (y v) = true) vs ->
  Z.of_nat (length es) < 2 ^ 53 ->
  is_nan (calculateAverageDistance vs es) = false.
Proof.
  intros Hfin Hlen. unfold calculateAverageDistance. rewrite average_loop. simpl.
  pose proof (resolvable_edges_le vs es) as Hle.
  destruct (length (resolvable_edges vs es)) as [|k] eqn:Ek; [reflexivity|].
  simpl. apply is_nan_false. rewrite FloatAxioms.div_spec.
  destruct (of_nat_finite (S k)) as (m & e & ->); [lia|lia|].
  apply SFdiv_finite.
  assert (Hsum : signed_as false
            (Prim2SF (fold_left PrimFloat.add
               (map (fun p => distance (fst p) (snd p)) (resolvable_edges vs es)) 0%float))).
  { apply sum_signed; [|reflexivity]. apply Forall_forall. intros d Hd.
    change (d ∈ (fun p => distance (fst p) (snd p)) <$> resolvable_edges vs es) in Hd.
    apply list_elem_of_fmap in Hd as ([s t] & -> & Hp).
    pose proof (resolvable_edges_in vs es) as Hin. rewrite Forall_forall in Hin.
    destruct (Hin _ Hp) as [Hs Ht]. rewrite Forall_forall in Hfin.
    destruct (Hfin _ Hs) as [? ?], (Hfin _ Ht) as [? ?].
    apply distance_signed; assumption. }
  intros Hnan. rewrite Hnan in Hsum. exact Hsum.
Qed.

End Counters.

Section DistanceSignProperties.

Local Open Scope float_scope.

(** X3. Neither distance metric is ever negative, whatever the coordinates
    and the edges: [calculateAverageDistance] and
    [calculateMinimumNodeDistance] return NaN, [+0], a positive number or
    [Infinity].  When every coordinate is finite neither is NaN: both are
    numbers [>= 0] (the edge array, as every array, being shorter than
    [2^53]). *)
Theorem distance_metrics_never_negative (vs : list point) (es : list Edge) :
  (calculateAverageDistance vs es <? 0) = false
  /\ (calculateMinimumNodeDistance vs <? 0) = false
  /\ (Forall (fun v => is_finite (x v) = true /\ is_finite (y v) = true) vs ->
      (0 <=? calculateMinimumNodeDistance vs) = true
      /\ ((Z.of_nat (length es) < 2 ^ 53)%Z ->
          (0 <=? calculateAverageDistance vs es) = true)).
Proof.
  split; [apply nonneg_not_below_zero, calculateAverageDistance_nonneg_or_nan|].
  split; [apply nonneg_not_below_zero, calculateMinimumNodeDistance_nonneg_or_nan|].
  intros Hfin. split.
  - apply nonneg_above_zero.
    + apply calculateMinimumNodeDistance_nonneg_or_nan.
    + apply calculateMinimumNodeDistance_not_nan, Hfin.
  - intros Hlen. apply nonneg_above_zero.
    + apply calculateAverageDistance_nonneg_or_nan.
    + apply calculateAverageDistance_not_nan; assumption.
Qed.

(** X3, witness: the right angle, whose coordinates are finite. *)
Lemma distance_metrics_never_negative_witness :
  Forall (fun v => is_finite (x v) = true /\ is_finite (y v) = true) right_angle
  /\ (0 <=? calculateMinimumNodeDistance right_angle) = true
  /\ (0 <=? calculateAverageDistance right_angle sides_and_stray) = true.
Proof.
  assert (Hfin : Forall (fun v => is_finite (x v) = true /\ is_finite (y v) = true)
                        right_angle) by (repeat constructor).
  destruct (distance_metrics_never_negative right_angle sides_and_stray)
    as (_ & _ & Hnum).
  destruct (Hnum Hfin) as [Hmin Havg].
  split; [exact Hfin|]. split; [exact Hmin | apply Havg; reflexivity].
Defined.

End DistanceSignProperties.

(** ** Distances do not depend on the direction *)

Section Mirror.

Variables prec emax : Z.

Lemma binary_round_aux_opp (s : bool) (m e : Z) (l : location) :
  binary_round_aux prec emax (negb s) m e l = SFopp (binary_round_aux prec emax s m e l).
Proof.
  unfold binary_round_aux.
  destruct (shr_fexp prec emax m e l) as [mrs' e'].
  destruct (shr_fexp prec emax _ e' loc_Exact) as [mrs'' e''].
  destruct (shr_m mrs''); [reflexivity| |reflexivity].
  destruct (e'' <=? emax - prec)%Z; reflexivity.
Qed.

Lemma binary_round_opp (s : bool) (p : positive) (e : Z) :
  binary_round prec emax (negb s) p e = SFopp (binary_round prec emax s p e).
Proof.
  unfold binary_round.
  destruct (shl_align p e (fexp prec emax (Z.pos (digits2_pos p) + e))) as [mz ez].
  apply binary_round_aux_opp.
Qed.

Lemma binary_normalize_mirror (z e : Z) :
  mirror (binary_normalize prec emax z e false) (binary_normalize prec emax (- z) e false).
Proof.
  destruct z as [|p|p]; simpl.
  - left. reflexivity.
  - right. apply (binary_round_opp false).
  - right. rewrite (binary_round_opp false). destruct (binary_round prec emax false p e);
      simpl; rewrite ?negb_involutive; reflexivity.
Qed.

Lemma SFsub_mirror (a b : spec_float) :
  mirror (SFsub prec emax a b) (SFsub prec emax b a).
Proof.
  destruct a as [s1|s1| |s1 m1 e1], b as [s2|s2| |s2 m2 e2]; simpl;
    try (left; reflexivity);
    try (destruct s1, s2; first [left; reflexivity | right; reflexivity]);
    try (right; simpl; rewrite ?negb_involutive; reflexivity).
  all: rewrite (Z.min_comm e2 e1);
    match goal with |- mirror (binary_normalize _ _ (?u - ?v) _ _) _ =>
      replace (v - u)%Z with (- (u - v))%Z by lia end;
    apply binary_normalize_mirror.
Qed.

Lemma SFmul_mirror_square (a b : spec_float) :
  mirror a b -> SFmul prec emax b b = SFmul prec emax a a.
Proof.
  intros [-> | ->]; [reflexivity|].
  destruct a as [s|s| |s m e]; simpl; try reflexivity;
    replace (xorb (negb s) (negb s)) with (xorb s s) by (destruct s; reflexivity);
    reflexivity.
Qed.

End Mirror.

Section Undirected.

Local Open Scope float_scope.

Lemma square_of_difference (a b : float) :
  JS.Math_pow2 (a - b) = JS.Math_pow2 (b - a).
Proof.
  unfold JS.Math_pow2. apply Prim2SF_inj.
  rewrite !FloatAxioms.mul_spec, !FloatAxioms.sub_spec.
  symmetry. apply SFmul_mirror_square, SFsub_mirror.
Qed.

Lemma distance_sym (a b : point) : distance a b = distance b a.
Proof.
  unfold distance.
  rewrite (square_of_difference (x a) (x b)), (square_of_difference (y a) (y b)).
  reflexivity.
Qed.

Lemma average_step_flip (m : gmap string point) (acc : float * nat) (e : Edge) :
  average_step m acc (flip_edge e) = average_step m acc e.
Proof.
  unfold average_step, flip_edge. simpl.
  destruct (m !! source e) as [s|], (m !! target e) as [t|]; try reflexivity.
  rewrite (distance_sym t s). reflexivity.
Qed.

(** X4. Edges are undirected for the average distance: the distance of two
    vertices is the same binary64 number in both directions, so exchanging
    [source] and [target] in any of the edges leaves
    [calculateAverageDistance] unchanged. *)
Theorem calculateAverageDistance_undirected (vs : list point) (es : list Edge)
    (flips : Edge -> bool) :
  (forall a b : point, distance a b = distance b a)
  /\ calculateAverageDistance vs (map (fun e => if flips e then flip_edge e else e) es)
     = calculateAverageDistance vs es.
Proof.
  split; [apply distance_sym|].
  unfold calculateAverageDistance. rewrite fold_left_map_arg.
  rewrite (fold_left_pointwise
             (fun a e => average_step (nodeMap_of vs) a (if flips e then flip_edge e else e))
             (average_step (nodeMap_of vs))); [reflexivity|].
  intros a e. destruct (flips e); [apply average_step_flip | reflexivity].
Qed.

End Undirected.

(** ** The minimum distance and the set of vertices *)

Section MinimumAndVertices.

Local Open Scope float_scope.

Lemma pair_distances_cons (a : point) (l : list point) (d : float) :
  d ∈ pair_distances (a :: l)
  <-> (exists b, b ∈ l /\ d = distance a b) \/ d ∈ pair_distances l.
Proof.
  rewrite !elem_of_pair_distances. split.
  - intros (i & j & u & v & Hij & Hu & Hv & ->).
    destruct j as [|j]; [lia|]. simpl in Hv. destruct i as [|i]; simpl in Hu.
    + injection Hu as <-. left. exists v. split; [|reflexivity].
      eapply list_elem_of_lookup_2, Hv.
    + right. exists i, j, u, v. repeat split; try assumption. lia.
  - intros [(b & Hb & ->) | (i & j & u & v & Hij & Hu & Hv & ->)].
    + apply list_elem_of_lookup in Hb as [j Hj].
      exists 0%nat, (S j), a, b. repeat split; try assumption. lia.
    + exists (S i), (S j), u, v. repeat split; try assumption. lia.
Qed.

(** The pairs of vertices of a sublist are pairs of the list. *)
Lemma pair_distances_sublist (vs ws : list point) (d : float) :
  sublist vs ws -> d ∈ pair_distances vs -> d ∈ pair_distances ws.
Proof.
  induction 1 as [|a l1 l2 Hs IH|a l1 l2 Hs IH]; intros Hd.
  - exact Hd.
  - apply pair_distances_cons in Hd. apply pair_distances_cons.
    destruct Hd as [(b & Hb & ->) | Hd].
    + left. exists b. split; [|reflexivity]. eapply elem_of_sublist; eassumption.
    + right. apply IH, Hd.
  - apply pair_distances_cons. right. apply IH, Hd.
Qed.

Lemma leb_infinity (a : float) : is_nan a = false -> (a <=? infinity) = true.
Proof.
  rewrite is_nan_false, FloatAxioms.leb_spec.
  change (Prim2SF infinity) with (S754_infinity false). unfold SFleb.
  destruct (Prim2SF a) as [s|[|]| |[|] m e]; simpl; congruence.
Qed.

(** A number that is not negative and at most [0] is [+0]. *)
Lemma nonneg_leb_zero (f : float) :
  nonneg_or_nan (Prim2SF f) -> (f <=? 0) = true -> f = 0.
Proof.
  rewrite FloatAxioms.leb_spec. change (Prim2SF 0) with (S754_zero false).
  intros Hs Hle. apply Prim2SF_inj. change (Prim2SF 0) with (S754_zero false).
  unfold nonneg_or_nan, SFleb in *.
  destruct (Prim2SF f) as [s|s| |s m e]; simpl in *; try discriminate; subst;
    solve [reflexivity | discriminate].
Qed.

(** The difference of a finite number and itself is [+0]. *)
Lemma sub_diag_finite (a : float) : is_finite a = true -> a - a = 0.
Proof.
  intros Hf. apply is_finite_spec in Hf. apply Prim2SF_inj.
  rewrite FloatAxioms.sub_spec. change (Prim2SF 0) with (S754_zero false).
  unfold SF64sub, SFsub.
  destruct (Prim2SF a) as [s|s| |s m e]; try contradiction.
  - destruct s; reflexivity.
  - cbv zeta. rewrite Z.sub_diag. reflexivity.
Qed.

Lemma distance_coincident (a b : point) :
  is_finite (x a) = true -> is_finite (y a) = true ->
  x a = x b -> y a = y b -> distance a b = 0.
Proof.
  intros Hx Hy Ex Ey. unfold distance. rewrite <- Ex, <- Ey.
  rewrite (sub_diag_finite _ Hx), (sub_diag_finite _ Hy). reflexivity.
Qed.

End MinimumAndVertices.

Section MinimumAndVerticesProperties.

Local Open Scope float_scope.

(** X5. Taking vertices away never decreases the minimum distance, and
    adding vertices never increases it: for vertices of finite coordinates,
    the minimum distance of a list is at most that of any of its sublists
    (which is [Infinity] when fewer than two vertices are left). *)
Theorem calculateMinimumNodeDistance_sublist (vs ws : list point) :
  sublist vs ws ->
  Forall (fun v => is_finite (x v) = true /\ is_finite (y v) = true) ws ->
  (calculateMinimumNodeDistance ws <=? calculateMinimumNodeDistance vs) = true.
Proof.
  intros Hsub Hfin.
  assert (Hfin' : Forall (fun v => is_finite (x v) = true /\ is_finite (y v) = true) vs).
  { apply Forall_forall. intros v Hv. rewrite Forall_forall in Hfin.
    apply Hfin. eapply elem_of_sublist; eassumption. }
  rewrite !minimum_loop_pairs.
  destruct (fold_min_spec (pair_distances ws) infinity eq_refl
              (pair_distances_not_nan ws Hfin)) as (Hnan & _ & _ & Hall).
  destruct (fold_min_spec (pair_distances vs) infinity eq_refl
              (pair_distances_not_nan vs Hfin')) as (_ & [Hin|Hin] & _ & _).
  - rewrite Hin. apply leb_infinity, Hnan.
  - apply Hall. eapply pair_distances_sublist; eassumption.
Qed.

(** X5, witness: the right angle without its middle vertex. *)
Lemma calculateMinimumNodeDistance_sublist_witness :
  sublist [mkNode "A" 0 0; mkNode "C" 0 1] right_angle
  /\ (calculateMinimumNodeDistance right_angle
      <=? calculateMinimumNodeDistance [mkNode "A" 0 0; mkNode "C" 0 1]) = true.
Proof.
  assert (Hsub : sublist [mkNode "A" 0 0; mkNode "C" 0 1] right_angle).
  { apply sublist_skip, sublist_cons, sublist_skip, sublist_nil. }
  split; [exact Hsub|].
  apply (calculateMinimumNodeDistance_sublist _ _ Hsub). repeat constructor.
Defined.

(** X6. Two vertices at the same position make the minimum distance [0]:
    if two distinct indices hold vertices with equal coordinates, and all
    coordinates are finite, [calculateMinimumNodeDistance] returns [+0]. *)
Theorem calculateMinimumNodeDistance_coincident (vs : list point) (i j : nat)
    (a b : point) :
  Forall (fun v => is_finite (x v) = true /\ is_finite (y v) = true) vs ->
  (i < j)%nat -> vs !! i = Some a -> vs !! j = Some b ->
  x a = x b -> y a = y b ->
  calculateMinimumNodeDistance vs = 0.
Proof.
  intros Hfin Hij Ha Hb Ex Ey.
  apply nonneg_leb_zero; [apply calculateMinimumNodeDistance_nonneg_or_nan|].
  assert (Hd : distance a b = 0).
  { rewrite Forall_forall in Hfin.
    destruct (Hfin a) as [Hx Hy]; [eapply list_elem_of_lookup_2, Ha|].
    apply distance_coincident; assumption. }
  rewrite minimum_loop_pairs.
  destruct (fold_min_spec (pair_distances vs) infinity eq_refl
              (pair_distances_not_nan vs Hfin)) as (_ & _ & _ & Hall).
  rewrite <- Hd. apply Hall. apply elem_of_pair_distances.
  exists i, j, a, b. repeat split; assumption.
Qed.

(** X6, witness: a third vertex on top of the first of two. *)
Lemma calculateMinimumNodeDistance_coincident_witness :
  calculateMinimumNodeDistance
    [mkNode "A" 0.5 0.25; mkNode "B" 1 1; mkNode "C" 0.5 0.25] = 0.
Proof.
  apply (calculateMinimumNodeDistance_coincident _ 0 2
           (mkNode "A" 0.5 0.25) (mkNode "C" 0.5 0.25));
    try reflexivity; [repeat constructor | lia].
Defined.

End MinimumAndVerticesProperties.

(** ** The coordinate check and the comparison of two layouts *)

Section Facade.

Local Open Scope float_scope.

(** A number in the unit interval is neither NaN nor an infinity. *)
Lemma in_unit_interval_finite (c : float) :
  (0 <=? c) = true -> (c <=? 1) = true -> is_finite c = true.
Proof.
  intros H0 H1. unfold is_finite, is_infinity.
  rewrite negb_true_iff, orb_false_iff. split; [apply (leb_not_nan _ _ H1)|].
  rewrite FloatAxioms.eqb_spec, abs_spec.
  rewrite FloatAxioms.leb_spec in H0, H1.
  change (Prim2SF infinity) with (S754_infinity false).
  change (Prim2SF 0) with (S754_zero false) in H0.
  destruct (Prim2SF c) as [s|[|]| |s m e]; simpl in *; try reflexivity;
    try discriminate.
Qed.

Lemma not_finite_spec (f : float) :
  match Prim2SF f with S754_nan | S754_infinity _ => True | _ => False end ->
  is_finite f = false.
Proof.
  intros Hf. unfold is_finite, is_infinity. rewrite negb_false_iff, orb_true_iff.
  destruct (Prim2SF f) as [s|s| |s m e] eqn:E; try contradiction.
  - right. rewrite FloatAxioms.eqb_spec, abs_spec, E. reflexivity.
  - left. apply is_nan_spec, E.
Qed.

Lemma minimum_of_few (vs : list point) :
  (length vs < 2)%nat -> calculateMinimumNodeDistance vs = infinity.
Proof.
  intros Hfew. destruct vs as [|a [|b vs]]; [reflexivity|reflexivity|].
  simpl in Hfew. lia.
Qed.

(** What is left of a distance, or of NaN, when [Infinity] is taken from
    it, and of [Infinity] when such a number is taken from it. *)
Lemma sub_infinity (d : float) :
  nonneg_or_nan (Prim2SF d) ->
  is_finite (d - infinity) = false /\ is_finite (infinity - d) = false.
Proof.
  intros Hd. split; apply not_finite_spec; rewrite FloatAxioms.sub_spec;
    change (Prim2SF infinity) with (S754_infinity false);
    unfold nonneg_or_nan in Hd;
    destruct (Prim2SF d) as [s|s| |s m e]; simpl in *; subst; exact I.
Qed.

End Facade.

Section FacadeProperties.

Local Open Scope float_scope.

(** X7. [validateCoordinates] accepts only numbers: when it returns [true],
    every coordinate of every vertex is finite, neither NaN nor an
    infinity (and lies in the unit interval, which is what it tests). *)
Theorem validateCoordinates_finite (vs : list point) :
  validateCoordinates vs = true ->
  Forall (fun v => is_finite (x v) = true /\ is_finite (y v) = true
                   /\ in_unit_interval (x v) = true /\ in_unit_interval (y v) = true) vs.
Proof.
  unfold validateCoordinates. rewrite forallb_forall, Forall_forall.
  intros Hall v Hv. apply list_elem_of_In in Hv. specialize (Hall v Hv).
  rewrite !andb_true_iff in Hall. destruct Hall as [[[Hx0 Hx1] Hy0] Hy1].
  unfold in_unit_interval. rewrite Hx0, Hx1, Hy0, Hy1.
  repeat split; apply in_unit_interval_finite; assumption.
Qed.

(** X7, witness: the corners of the unit square pass the check. *)
Lemma validateCoordinates_finite_witness :
  validateCoordinates unit_square = true
  /\ Forall (fun v => is_finite (x v) = true /\ is_finite (y v) = true
                      /\ in_unit_interval (x v) = true /\ in_unit_interval (y v) = true)
            unit_square.
Proof.
  split; [reflexivity|]. apply (validateCoordinates_finite unit_square). reflexivity.
Defined.

(** X8. [compareLayouts] on degenerate inputs.  Comparing a layout with
    itself reports no change in crossings, and a difference of distances
    that is [0] or NaN.  When one of the two layouts has fewer than two
    vertices the reported [minDistanceImprovement] is never a finite number,
    and when both have it is NaN: it is [Infinity - Infinity], the two
    sentinels of [calculateMinimumNodeDistance]. *)
Theorem compareLayouts_degenerate (originalNodes optimizedNodes : list point)
    (edges : list Edge) :
  (crossingReduction (compareLayouts originalNodes originalNodes edges) = 0%Z
   /\ zero_or_nan (distanceImprovement (compareLayouts originalNodes originalNodes edges))
   /\ zero_or_nan (minDistanceImprovement (compareLayouts originalNodes originalNodes edges)))
  /\ ((length originalNodes < 2)%nat \/ (length optimizedNodes < 2)%nat ->
      is_finite (minDistanceImprovement (compareLayouts originalNodes optimizedNodes edges))
      = false)
  /\ ((length originalNodes < 2)%nat -> (length optimizedNodes < 2)%nat ->
      is_nan (minDistanceImprovement (compareLayouts originalNodes optimizedNodes edges))
      = true).
Proof.
  unfold compareLayouts. simpl. split; [|split].
  - split; [lia|]. split; apply sub_diag.
  - intros [Hfew|Hfew]; rewrite (minimum_of_few _ Hfew).
    + apply sub_infinity, calculateMinimumNodeDistance_nonneg_or_nan.
    + apply sub_infinity, calculateMinimumNodeDistance_nonneg_or_nan.
  - intros H1 H2. rewrite (minimum_of_few _ H1), (minimum_of_few _ H2). reflexivity.
Qed.

(** X8, witness: a single vertex, before and after. *)
Lemma compareLayouts_degenerate_witness :
  is_nan (minDistanceImprovement
            (compareLayouts [mkNode "A" 0.5 0.5] [mkNode "A" 0.25 0.75] [])) = true.
Proof.
  destruct (compareLayouts_degenerate [mkNode "A" 0.5 0.5] [mkNode "A" 0.25 0.75] [])
    as (_ & _ & Hnan).
  apply Hnan; simpl; lia.
Defined.

End FacadeProperties.

(** ** The vertex an identifier resolves to, in the renderer and in the metrics *)

Section Resolution.

Implicit Types (vs : list point) (k : string).

Lemma find_node_none vs k : k ∉ map id vs -> find_node vs k = None.
Proof.
  unfold find_node. induction vs as [|n vs IH]; intros Hk; [reflexivity|]. simpl.
  destruct (String.eqb_spec (id n) k) as [E|E].
  - exfalso. apply Hk. simpl. rewrite E. apply elem_of_cons. left. reflexivity.
  - apply IH. intros Hin. apply Hk. simpl. apply elem_of_cons. right. exact Hin.
Qed.

(** [find] stops at the first vertex with the identifier. *)
Lemma find_node_first (l1 : list point) (a : point) (l2 : list point) :
  id a ∉ map id l1 -> find_node (l1 ++ a :: l2) (id a) = Some a.
Proof.
  unfold find_node. induction l1 as [|n l1 IH]; intros Hk; simpl.
  - rewrite String.eqb_refl. reflexivity.
  - destruct (String.eqb_spec (id n) (id a)) as [E|E].
    + exfalso. apply Hk. simpl. rewrite E. apply elem_of_cons. left. reflexivity.
    + apply IH. intros Hin. apply Hk. simpl. apply elem_of_cons. right. exact Hin.
Qed.

Lemma nodeMap_fold_later vs (m : gmap string point) k :
  k ∉ map id vs ->
  fold_left (fun m node => <[id node := node]> m) vs m !! k = m !! k.
Proof.
  revert m. induction vs as [|n vs IH]; intros m Hk; [reflexivity|]. simpl.
  rewrite IH.
  - apply lookup_insert_ne. intros E. apply Hk. simpl. rewrite E.
    apply elem_of_cons. left. reflexivity.
  - intros Hin. apply Hk. simpl. apply elem_of_cons. right. exact Hin.
Qed.

(** The map keeps the last vertex with the identifier. *)
Lemma nodeMap_of_last (l1 : list point) (a : point) (l2 : list point) :
  id a ∉ map id l2 -> nodeMap_of (l1 ++ a :: l2) !! id a = Some a.
Proof.
  intros Hk. unfold nodeMap_of. rewrite fold_left_app. simpl.
  rewrite nodeMap_fold_later by exact Hk. apply lookup_insert_eq.
Qed.

Lemma nodeMap_of_none vs k : k ∉ map id vs -> nodeMap_of vs !! k = None.
Proof.
  intros Hk. apply eq_None_not_Some. intros Hs. apply Hk, nodeMap_of_is_Some, Hs.
Qed.

Lemma find_node_nodeMap vs k :
  NoDup (map id vs) -> find_node vs k = nodeMap_of vs !! k.
Proof.
  intros Hnd. destruct (decide (k ∈ map id vs)) as [Hin|Hout].
  - change (map id vs) with (id <$> vs) in Hin.
    apply list_elem_of_fmap in Hin as (a & -> & Ha).
    apply list_elem_of_split in Ha as (l1 & l2 & ->).
    rewrite map_app in Hnd. simpl in Hnd.
    apply NoDup_app in Hnd as (_ & Hdis & Hnd2). apply NoDup_cons in Hnd2 as [Hl2 _].
    rewrite find_node_first, nodeMap_of_last; [reflexivity | exact Hl2 |].
    intros Hl1. apply (Hdis _ Hl1). apply elem_of_cons. left. reflexivity.
  - rewrite find_node_none, nodeMap_of_none by exact Hout. reflexivity.
Qed.

End Resolution.

Section ResolutionProperties.

Variables (xScale yScale : float -> float).

(** X9. With vertices of distinct identifiers, the renderer and the metrics
    resolve the endpoints of an edge to the same vertices: [nodes.find]
    returns what the identifier map holds, so a line is drawn between the
    scaled positions of the two vertices whose distance and crossings are
    measured. *)
Theorem renderer_resolves_as_metrics (vs : list point) (d : Edge) :
  NoDup (map id vs) ->
  (forall k, find_node vs k = nodeMap_of vs !! k)
  /\ forall s t, nodeMap_of vs !! source d = Some s -> nodeMap_of vs !! target d = Some t ->
       line_x1 xScale vs d = xScale (x s) /\ line_y1 yScale vs d = yScale (y s)
       /\ line_x2 xScale vs d = xScale (x t) /\ line_y2 yScale vs d = yScale (y t).
Proof.
  intros Hnd. split; [intros k; apply find_node_nodeMap, Hnd|].
  intros s t Hs Ht. unfold line_x1, line_y1, line_x2, line_y2.
  rewrite !(find_node_nodeMap vs _ Hnd), Hs, Ht. repeat split.
Qed.

(** X10. With a repeated identifier the two disagree: [nodes.find] resolves
    it to the first vertex that carries it, the identifier map of the
    metrics to the last one. *)
Theorem first_match_and_last_entry (l1 l2 : list point) (a : point) :
  (id a ∉ map id l1 -> find_node (l1 ++ a :: l2) (id a) = Some a)
  /\ (id a ∉ map id l2 -> nodeMap_of (l1 ++ a :: l2) !! id a = Some a).
Proof. split; [apply find_node_first | apply nodeMap_of_last]. Qed.

(** X11. An edge with an endpoint that names no vertex is skipped by the
    metrics and still drawn by the renderer, with that end of the line at
    the origin [(0, 0)] of the drawing. *)
Theorem unresolved_endpoint_drawn_at_origin (vs : list point) (d : Edge) :
  (source d ∉ map id vs ->
   line_x1 xScale vs d = 0%float /\ line_y1 yScale vs d = 0%float)
  /\ (target d ∉ map id vs ->
      line_x2 xScale vs d = 0%float /\ line_y2 yScale vs d = 0%float)
  /\ (source d ∉ map id vs \/ target d ∉ map id vs ->
      (forall acc, average_step (nodeMap_of vs) acc d = acc)
      /\ (forall e, crosses (nodeMap_of vs) d e = false
                    /\ crosses (nodeMap_of vs) e d = false)).
Proof.
  split; [|split].
  - intros Hs. unfold line_x1, line_y1. rewrite (find_node_none _ _ Hs). split; reflexivity.
  - intros Ht. unfold line_x2, line_y2. rewrite (find_node_none _ _ Ht). split; reflexivity.
  - intros Hst.
    assert (Hr : resolves (nodeMap_of vs) d = false).
    { unfold resolves. destruct Hst as [Hk|Hk]; apply nodeMap_of_none in Hk; rewrite Hk;
        [reflexivity | destruct (nodeMap_of vs !! source d); reflexivity]. }
    split.
    + intros acc. unfold average_step. unfold resolves in Hr.
      destruct (nodeMap_of vs !! source d), (nodeMap_of vs !! target d);
        solve [reflexivity | discriminate].
    + intros e.
      assert (Hc : crosses (nodeMap_of vs) d e = false).
      { destruct (crosses (nodeMap_of vs) d e) eqn:Hc; [|reflexivity].
        apply crosses_resolves in Hc as [Hc _]. congruence. }
      split; [exact Hc | rewrite crosses_sym; exact Hc].
Qed.

End ResolutionProperties.

Section ResolutionRuns.

Local Open Scope float_scope.

(** X9, witness: the edge B-C of the right angle, with scales that leave
    the coordinates as they are. *)
Lemma renderer_resolves_as_metrics_witness :
  NoDup (map id right_angle)
  /\ line_x1 (fun v => v) right_angle (mkEdge "B" "C") = 1
  /\ line_y2 (fun v => v) right_angle (mkEdge "B" "C") = 1.
Proof.
  assert (Hnd : NoDup (map id right_angle)).
  { apply (bool_decide_unpack _). vm_compute. reflexivity. }
  destruct (renderer_resolves_as_metrics (fun v => v) (fun v => v) right_angle
              (mkEdge "B" "C") Hnd) as [_ Hline].
  destruct (Hline (mkNode "B" 1 0) (mkNode "C" 0 1) eq_refl eq_refl)
    as (H1 & _ & _ & H4).
  split; [exact Hnd|]. split; [exact H1 | exact H4].
Defined.

(** X10, witness: two vertices named A. *)
Lemma first_match_and_last_entry_witness :
  find_node [mkNode "A" 0 0; mkNode "A" 1 1] "A" = Some (mkNode "A" 0 0)
  /\ nodeMap_of [mkNode "A" 0 0; mkNode "A" 1 1] !! "A"%string = Some (mkNode "A" 1 1).
Proof.
  destruct (first_match_and_last_entry [] [mkNode "A" 1 1] (mkNode "A" 0 0)) as [Hf _].
  destruct (first_match_and_last_entry [mkNode "A" 0 0] [] (mkNode "A" 1 1)) as [_ Hl].
  split; [apply Hf | apply Hl]; simpl; apply not_elem_of_nil.
Defined.

(** X11, witness: the edge A-Q of [sides_and_stray] on the right angle. *)
Lemma unresolved_endpoint_drawn_at_origin_witness :
  (target (mkEdge "A" "Q") ∉ map id right_angle)
  /\ line_x2 (fun v => v) right_angle (mkEdge "A" "Q") = 0
  /\ line_y2 (fun v => v) right_angle (mkEdge "A" "Q") = 0.
Proof.
  assert (Hq : target (mkEdge "A" "Q") ∉ map id right_angle).
  { apply (bool_decide_unpack _). vm_compute. reflexivity. }
  destruct (unresolved_endpoint_drawn_at_origin (fun v => v) (fun v => v) right_angle
              (mkEdge "A" "Q")) as (_ & Ht & _).
  split; [exact Hq | exact (Ht Hq)].
Defined.

End ResolutionRuns.

(** ** The optimizer: metrics before and after the layout *)

Section OptimizeGraph.

Implicit Types (E : Engine float) (options : LayoutOptions float) (g : GraphData)
  (h : Heap float).

(** An array with an element that is not an object makes [optimizeLayout]
    throw a TypeError, as it makes the metrics. *)
Lemma optimizeLayout_unreadable E options g h :
  read_nodes h (nodes g) = None \/ read_edges h (edges g) = None ->
  fst (optimizeLayout E options g h) = Thrown TypeError.
Proof.
  intros Hnone.
  unfold optimizeLayout, simulate, prepare, bind, get_nodes, get_edges, alloc_nodes, throw.
  destruct (read_nodes h (nodes g)) as [ins|] eqn:Hn; [|reflexivity].
  destruct Hnone as [Hnone|Hnone]; [discriminate|].
  unfold ret, read_edges in *. simpl. rewrite Hnone. reflexivity.
Qed.

(** The input arrays read after the call as before it, whether the call
    returned or threw. *)
Lemma optimizeLayout_keeps_reads E options g h ins (es : list Edge) r h' :
  engine_frames E ->
  read_nodes h (nodes g) = Some ins -> read_edges h (edges g) = Some es ->
  optimizeLayout E options g h = (r, h') ->
  read_nodes h' (nodes g) = Some ins /\ read_edges h' (edges g) = Some es.
Proof.
  intros HE Hin Hes Ho.
  pose proof (simulate_cases E frames options g h HE frames_refl frames_trans) as Hc.
  rewrite (prepare_returns options g h ins es Hin Hes) in Hc.
  destruct Hc as (rs & h4 & Hs & Hf & _).
  apply frames_keep_input in Hf as (Hn & He & Hlen).
  assert (Hshape : exists extra, h' = mkHeap (node_objs h4 ++ extra) (edge_objs h4)).
  { unfold optimizeLayout, bind in Ho. rewrite Hs in Ho. destruct rs as [moved|e].
    - unfold alloc_nodes in Ho. injection Ho as <- <-. eexists. reflexivity.
    - injection Ho as <- <-. exists []. rewrite app_nil_r. destruct h4; reflexivity. }
  destruct Hshape as (extra & ->). split.
  - rewrite <- Hin. apply read_nodes_ext. intros a Ha. simpl.
    assert (Hb : (a < length (node_objs h))%nat) by (eapply read_nodes_bound; eassumption).
    rewrite lookup_app_l by lia. apply Hn, Hb.
  - rewrite <- Hes. apply read_edges_ext. intros a Ha. simpl. apply He.
    eapply read_edges_bound; eassumption.
Qed.

(** The returned vertices carry the identifiers of the input, in order. *)
Lemma optimizeLayout_keeps_ids E options g h ins out h' :
  engine_keeps_ids E ->
  read_nodes h (nodes g) = Some ins ->
  optimizeLayout E options g h = (Returned out, h') ->
  exists outs, read_nodes h' out = Some outs /\ map id outs = map id ins.
Proof.
  intros HE Hin Ho.
  destruct (optimizeLayout_inv _ _ _ _ _ _ Ho) as (moved & h4 & Hs & -> & -> & Hout).
  pose proof (simulate_cases E (fun _ _ => keeps_ids) options g h HE
                (fun _ _ => keeps_ids_refl) (fun _ _ => keeps_ids_trans)) as Hc.
  destruct (prepare options g h) as [[[ns ls]|e] h2] eqn:Hp;
    [|rewrite Hs in Hc; discriminate].
  destruct Hc as (r & h4' & Hs' & Hk & Hm). rewrite Hs in Hs'. injection Hs' as <- <-.
  specialize (Hm moved eq_refl).
  destruct (prepare_inv _ _ _ _ _ _ Hp) as (ins' & es & Hin' & He & -> & -> & ->).
  rewrite Hin in Hin'. injection Hin' as <-.
  pose proof (read_allocated_nodes h (map (to_workspace options) ins)
                (edge_objs h ++ map to_link es)) as Hr2.
  rewrite length_map in Hr2.
  destruct (keeps_ids_read _ _ _ _ Hk Hr2) as (moved' & Hm' & Hid).
  rewrite Hm in Hm'. injection Hm' as <-.
  rewrite map_id_to_workspace in Hid.
  exists (map (to_unit_square options) moved). split; [exact Hout|].
  rewrite map_id_to_unit_square. exact Hid.
Qed.

(** The run of [optimizeGraph] on arrays of objects. *)
Lemma optimizeGraph_run E options g h ins (es : list Edge) :
  engine_frames E ->
  read_nodes h (nodes g) = Some ins -> read_edges h (edges g) = Some es ->
  match optimizeLayout E options g h with
  | (Thrown e, h') => optimizeGraph E options g h = (Thrown e, h')
  | (Returned out, h') =>
      exists outs,
        read_nodes h' out = Some outs
        /\ read_nodes h' (nodes g) = Some ins /\ read_edges h' (edges g) = Some es
        /\ optimizeGraph E options g h
           = (Returned
                (mkResult (nodes g) out (edges g)
                   (mkMetrics (calculateEdgeCrossings ins es)
                              (calculateEdgeCrossings outs es)
                              (calculateAverageDistance ins es)
                              (calculateAverageDistance outs es)
                              (calculateMinimumNodeDistance ins)
                              (calculateMinimumNodeDistance outs))), h')
  end.
Proof.
  intros HE Hin Hes.
  destruct (optimizeLayout E options g h) as [[out|e] h'] eqn:Ho.
  - destruct (optimizeLayout_keeps_reads _ _ _ _ _ _ _ _ HE Hin Hes Ho) as [Hin' Hes'].
    destruct (optimizeLayout_inv _ _ _ _ _ _ Ho) as (moved & h4 & _ & _ & _ & Hout).
    exists (map (to_unit_square options) moved).
    split; [exact Hout|]. split; [exact Hin'|]. split; [exact Hes'|].
    unfold optimizeGraph, bind, get_nodes, get_edges, ret.
    rewrite Hin, Hes, Ho, Hout, Hes'. reflexivity.
  - unfold optimizeGraph, bind, get_nodes, get_edges, ret.
    rewrite Hin, Hes, Ho. reflexivity.
Qed.

Lemma optimizeGraph_unreadable E options g h :
  read_nodes h (nodes g) = None \/ read_edges h (edges g) = None ->
  optimizeGraph E options g h = (Thrown TypeError, h).
Proof.
  intros Hnone. unfold optimizeGraph, bind, get_nodes, get_edges, ret, throw.
  destruct (read_nodes h (nodes g)) as [ins|]; [|reflexivity].
  destruct Hnone as [Hnone|Hnone]; [discriminate|]. rewrite Hnone. reflexivity.
Qed.

End OptimizeGraph.

Section OptimizeGraphProperties.

Local Open Scope float_scope.

Implicit Types (E : Engine float) (options : LayoutOptions float) (g : GraphData)
  (h : Heap float).

(** X12. [optimizeGraph] fails exactly when [optimizeLayout] does, with the
    same error: computing the metrics before and after adds no failure.  When
    it returns, [optimizedNodes] is the array [optimizeLayout] returned in
    the same store, and [originalNodes] and [edges] hold the references of
    the input arrays, in order.  (The engine is one that writes only the
    objects of the arrays it is given.) *)
Theorem optimizeGraph_throws_as_optimizeLayout E options g h :
  engine_frames E ->
  (forall e, fst (optimizeGraph E options g h) = Thrown e
             <-> fst (optimizeLayout E options g h) = Thrown e)
  /\ (forall out h', optimizeLayout E options g h = (Returned out, h') ->
        exists r, optimizeGraph E options g h = (Returned r, h'))
  /\ (forall r h', optimizeGraph E options g h = (Returned r, h') ->
        optimizeLayout E options g h = (Returned (optimizedNodes r), h')
        /\ originalNodes r = nodes g /\ result_edges r = edges g).
Proof.
  intros HE.
  destruct (read_nodes h (nodes g)) as [ins|] eqn:Hin;
    [destruct (read_edges h (edges g)) as [es|] eqn:Hes|].
  - pose proof (optimizeGraph_run E options g h ins es HE Hin Hes) as Hrun.
    destruct (optimizeLayout E options g h) as [[out|e] h'] eqn:Ho.
    + destruct Hrun as (outs & _ & _ & _ & ->). simpl. split; [|split].
      * intros e. split; discriminate.
      * intros out' h'' [= <- <-]. eexists. reflexivity.
      * intros r h'' [= <- <-]. repeat split.
    + rewrite Hrun. simpl. split; [|split; intros ? ? [=]].
      intros e'. split; intros [= ->]; reflexivity.
  - rewrite (optimizeGraph_unreadable E options g h) by (right; exact Hes).
    pose proof (optimizeLayout_unreadable E options g h (or_intror Hes)) as Ho.
    simpl. split; [|split].
    + intros e. rewrite Ho. split; intros [= <-]; reflexivity.
    + intros out h' Hr. rewrite Hr in Ho. discriminate.
    + intros r h' [=].
  - rewrite (optimizeGraph_unreadable E options g h) by (left; exact Hin).
    pose proof (optimizeLayout_unreadable E options g h (or_introl Hin)) as Ho.
    simpl. split; [|split].
    + intros e. rewrite Ho. split; intros [= <-]; reflexivity.
    + intros out h' Hr. rewrite Hr in Ho. discriminate.
    + intros r h' [=].
Qed.

(** X13. The metrics [optimizeGraph] reports are those of the layouts it
    returns: in the store left by the call, [originalNodes] and [edges] read
    as the input did before it, the six entries of [metrics] are the three
    metrics of [originalNodes] and of [optimizedNodes] over [edges], and
    [compareLayouts] on the three returned arrays gives the differences of
    these entries.  (The engine is one that writes only the objects of the
    arrays it is given.) *)
Theorem optimizeGraph_metrics_of_result E options g h r h' :
  engine_frames E ->
  optimizeGraph E options g h = (Returned r, h') ->
  exists ins outs es,
    read_nodes h (nodes g) = Some ins /\ read_edges h (edges g) = Some es
    /\ read_nodes h' (originalNodes r) = Some ins
    /\ read_nodes h' (optimizedNodes r) = Some outs
    /\ read_edges h' (result_edges r) = Some es
    /\ metrics r = mkMetrics (calculateEdgeCrossings ins es)
                             (calculateEdgeCrossings outs es)
                             (calculateAverageDistance ins es)
                             (calculateAverageDistance outs es)
                             (calculateMinimumNodeDistance ins)
                             (calculateMinimumNodeDistance outs)
    /\ compareLayouts ins outs es
       = mkComparison
           (Z.of_nat (originalCrossings (metrics r))
            - Z.of_nat (optimizedCrossings (metrics r)))
           (optimizedAverageDistance (metrics r) - originalAverageDistance (metrics r))
           (optimizedMinDistance (metrics r) - originalMinDistance (metrics r)).
Proof.
  intros HE Hrun.
  destruct (read_nodes h (nodes g)) as [ins|] eqn:Hin;
    [|rewrite optimizeGraph_unreadable in Hrun by (left; exact Hin); discriminate].
  destruct (read_edges h (edges g)) as [es|] eqn:Hes;
    [|rewrite optimizeGraph_unreadable in Hrun by (right; exact Hes); discriminate].
  pose proof (optimizeGraph_run E options g h ins es HE Hin Hes) as Hcase.
  destruct (optimizeLayout E options g h) as [[out|e] h4];
    [|rewrite Hcase in Hrun; discriminate].
  destruct Hcase as (outs & Hout & Hin' & Hes' & Hg).
  rewrite Hg in Hrun. injection Hrun as <- <-. simpl.
  exists ins, outs, es. repeat split; assumption.
Qed.

(** X14. The two layouts [optimizeGraph] measures have the same vertices
    by identifier, so both averages are taken over the same edges: an edge
    resolves in the optimized layout exactly when it does in the original
    one, and the numbers of edges averaged are equal; with fewer than two
    vertices both minimum distances are [Infinity], and with no resolvable
    edge both averages are [0].  (The engine is one that writes only the
    objects of the arrays it is given, and never an [id].) *)
Theorem optimizeGraph_same_edges_measured E options g h r h' :
  engine_frames E -> engine_keeps_ids E ->
  optimizeGraph E options g h = (Returned r, h') ->
  exists ins outs es,
    read_nodes h (nodes g) = Some ins /\ read_edges h (edges g) = Some es
    /\ read_nodes h' (optimizedNodes r) = Some outs
    /\ map id outs = map id ins
    /\ (forall e, resolves (nodeMap_of outs) e = resolves (nodeMap_of ins) e)
    /\ length (resolvable_edges outs es) = length (resolvable_edges ins es)
    /\ ((length ins < 2)%nat ->
        originalMinDistance (metrics r) = infinity
        /\ optimizedMinDistance (metrics r) = infinity)
    /\ (resolvable_edges ins es = [] ->
        originalAverageDistance (metrics r) = 0
        /\ optimizedAverageDistance (metrics r) = 0).
Proof.
  intros HE HK Hrun.
  destruct (read_nodes h (nodes g)) as [ins|] eqn:Hin;
    [|rewrite optimizeGraph_unreadable in Hrun by (left; exact Hin); discriminate].
  destruct (read_edges h (edges g)) as [es|] eqn:Hes;
    [|rewrite optimizeGraph_unreadable in Hrun by (right; exact Hes); discriminate].
  pose proof (optimizeGraph_run E options g h ins es HE Hin Hes) as Hcase.
  destruct (optimizeLayout E options g h) as [[out|e] h4] eqn:Ho;
    [|rewrite Hcase in Hrun; discriminate].
  destruct Hcase as (outs & Hout & _ & _ & Hg).
  rewrite Hg in Hrun. injection Hrun as <- <-. simpl.
  destruct (optimizeLayout_keeps_ids E options g h ins out h4 HK Hin Ho)
    as (outs' & Hout' & Hids).
  rewrite Hout in Hout'. injection Hout' as <-.
  assert (Hres : forall e, resolves (nodeMap_of outs) e = resolves (nodeMap_of ins) e).
  { intros e. unfold resolves.
    pose proof (nodeMap_of_is_Some outs (source e)) as Hs1.
    pose proof (nodeMap_of_is_Some ins (source e)) as Hs2.
    pose proof (nodeMap_of_is_Some outs (target e)) as Ht1.
    pose proof (nodeMap_of_is_Some ins (target e)) as Ht2.
    rewrite Hids in Hs1, Ht1. rewrite <- Hs2 in Hs1. rewrite <- Ht2 in Ht1.
    destruct (nodeMap_of outs !! source e), (nodeMap_of ins !! source e),
      (nodeMap_of outs !! target e), (nodeMap_of ins !! target e); try reflexivity;
      exfalso;
      first [ destruct (proj1 Hs1 ltac:(eauto)); discriminate
            | destruct (proj2 Hs1 ltac:(eauto)); discriminate
            | destruct (proj1 Ht1 ltac:(eauto)); discriminate
            | destruct (proj2 Ht1 ltac:(eauto)); discriminate ]. }
  assert (Hlen : length (resolvable_edges outs es) = length (resolvable_edges ins es)).
  { rewrite !resolvable_edges_length, Hids. reflexivity. }
  exists ins, outs, es. repeat split; try assumption.
  - apply minimum_of_few. assumption.
  - apply minimum_of_few. rewrite <- (length_map id), Hids, length_map. assumption.
  - unfold calculateAverageDistance. rewrite average_loop. simpl.
    rewrite H. reflexivity.
  - unfold calculateAverageDistance. rewrite average_loop. simpl.
    destruct (resolvable_edges outs es) as [|p ps] eqn:Ep; [reflexivity|].
    rewrite H in Hlen. discriminate.
Qed.

End OptimizeGraphProperties.

Section OptimizeGraphRuns.

Local Open Scope float_scope.

(** X12, witness: the dangling edge A-Z makes [optimizeGraph] throw what
    the engine throws, although the metrics skip that edge. *)
Lemma optimizeGraph_throws_as_optimizeLayout_witness :
  fst (optimizeGraph (strict_engine float) (new_ForceDirectedLayout no_options)
         dangling_graph two_vertices)
  = Thrown (EngineError "node not found: Z").
Proof.
  destruct (optimizeGraph_throws_as_optimizeLayout (strict_engine float)
              (new_ForceDirectedLayout no_options) dangling_graph two_vertices
              strict_engine_frames) as (Hthrow & _).
  apply Hthrow. vm_compute. reflexivity.
Defined.

(** X13, witness: the two vertices and the edge A-B. *)
Lemma optimizeGraph_metrics_of_result_witness :
  exists r h' ins outs es,
    optimizeGraph (strict_engine float) (new_ForceDirectedLayout no_options)
      sound_graph two_vertices = (Returned r, h')
    /\ read_nodes h' (originalNodes r) = Some ins
    /\ read_nodes h' (optimizedNodes r) = Some outs
    /\ read_edges h' (result_edges r) = Some es
    /\ originalCrossings (metrics r) = calculateEdgeCrossings ins es
    /\ optimizedAverageDistance (metrics r) = calculateAverageDistance outs es.
Proof.
  assert (Hrun : exists p,
             optimizeGraph (strict_engine float) (new_ForceDirectedLayout no_options)
               sound_graph two_vertices = (Returned (fst p), snd p))
    by (eexists (_, _); vm_compute; reflexivity).
  destruct Hrun as [[r h'] Hrun]. simpl in Hrun.
  destruct (optimizeGraph_metrics_of_result _ _ _ _ _ _ strict_engine_frames Hrun)
    as (ins & outs & es & _ & _ & Hin & Hout & Hes & Hm & _).
  exists r, h', ins, outs, es. rewrite Hm. simpl. repeat split; assumption.
Defined.

(** X14, witness: the same run; A and B come back, and the one edge is
    averaged before and after. *)
Lemma optimizeGraph_same_edges_measured_witness :
  exists r h' outs,
    optimizeGraph (strict_engine float) (new_ForceDirectedLayout no_options)
      sound_graph two_vertices = (Returned r, h')
    /\ read_nodes h' (optimizedNodes r) = Some outs
    /\ map id outs = ["A"; "B"]%string
    /\ length (resolvable_edges outs [mkEdge "A" "B"]) = 1%nat.
Proof.
  assert (Hrun : exists p,
             optimizeGraph (strict_engine float) (new_ForceDirectedLayout no_options)
               sound_graph two_vertices = (Returned (fst p), snd p))
    by (eexists (_, _); vm_compute; reflexivity).
  destruct Hrun as [[r h'] Hrun]. simpl in Hrun.
  destruct (optimizeGraph_same_edges_measured _ _ _ _ _ _
              strict_engine_frames strict_engine_keeps_ids Hrun)
    as (ins & outs & es & Hin & Hes & Hout & Hids & _ & Hlen & _).
  vm_compute in Hin. injection Hin as <-. vm_compute in Hes. injection Hes as <-.
  exists r, h', outs. split; [exact Hrun|]. split; [exact Hout|].
  split; [exact Hids|]. rewrite Hlen. reflexivity.
Defined.

End OptimizeGraphRuns.

(** ** The metrics and the order of the vertices *)

Section VertexOrder.

Local Open Scope float_scope.

Lemma nodeMap_of_elem (vs : list point) (a : point) :
  NoDup (map id vs) -> a ∈ vs -> nodeMap_of vs !! id a = Some a.
Proof.
  intros Hnd Ha. apply list_elem_of_split in Ha as (l1 & l2 & ->).
  rewrite map_app in Hnd. simpl in Hnd.
  apply NoDup_app in Hnd as (_ & _ & Hnd2). apply NoDup_cons in Hnd2 as [Hl2 _].
  apply nodeMap_of_last, Hl2.
Qed.

(** With distinct identifiers the identifier map does not depend on the
    order of the array. *)
Lemma nodeMap_of_Permutation (vs vs' : list point) :
  vs ≡ₚ vs' -> NoDup (map id vs) -> nodeMap_of vs = nodeMap_of vs'.
Proof.
  intros Hp Hnd.
  assert (Hids : map id vs ≡ₚ map id vs') by (apply (fmap_Permutation id), Hp).
  assert (Hnd' : NoDup (map id vs')) by (rewrite <- Hids; exact Hnd).
  apply map_eq. intros k. destruct (decide (k ∈ map id vs)) as [Hin|Hout].
  - change (map id vs) with (id <$> vs) in Hin.
    apply list_elem_of_fmap in Hin as (a & -> & Ha).
    rewrite (nodeMap_of_elem vs a Hnd Ha).
    symmetry. apply nodeMap_of_elem; [exact Hnd' | rewrite <- Hp; exact Ha].
  - rewrite (nodeMap_of_none vs k Hout). symmetry. apply nodeMap_of_none.
    rewrite <- Hids. exact Hout.
Qed.

(** Two numbers that are not negative and each at most the other are one
    number. *)
Lemma leb_antisym_nonneg (a b : float) :
  nonneg_or_nan (Prim2SF a) -> nonneg_or_nan (Prim2SF b) ->
  (a <=? b) = true -> (b <=? a) = true -> a = b.
Proof.
  rewrite !FloatAxioms.leb_spec. unfold SFleb, nonneg_or_nan.
  intros Ha Hb Hab Hba. apply Prim2SF_inj.
  destruct (Prim2SF a) as [s1|s1| |s1 m1 e1], (Prim2SF b) as [s2|s2| |s2 m2 e2];
    simpl in *; subst; try discriminate; try reflexivity.
  destruct (Z.compare_spec e1 e2) as [->|Hlt|Hgt].
  - rewrite Z.compare_refl in Hba.
    change (Pos.compare_cont Eq m1 m2) with (m1 ?= m2)%positive in Hab.
    change (Pos.compare_cont Eq m2 m1) with (m2 ?= m1)%positive in Hba.
    destruct (Pos.compare_spec m1 m2) as [->|Hm|Hm]; [reflexivity| |discriminate].
    rewrite (proj2 (Pos.compare_gt_iff m2 m1)) in Hba by exact Hm. discriminate.
  - rewrite (proj2 (Z.compare_gt_iff e2 e1)) in Hba by lia. discriminate.
  - discriminate.
Qed.

(** The distances of the pairs of a permuted list are those of the list. *)
Lemma pair_distances_Permutation (vs vs' : list point) (d : float) :
  vs ≡ₚ vs' -> d ∈ pair_distances vs -> d ∈ pair_distances vs'.
Proof.
  intros Hp Hd. apply Permutation_inj in Hp as (_ & f & Hinj & Hf).
  apply elem_of_pair_distances in Hd as (i & j & a & b & Hij & Ha & Hb & ->).
  rewrite Hf in Ha, Hb. apply elem_of_pair_distances.
  destruct (Nat.lt_trichotomy (f i) (f j)) as [Hlt|[Heq|Hgt]].
  - exists (f i), (f j), a, b. repeat split; assumption.
  - apply Hinj in Heq. lia.
  - exists (f j), (f i), b, a. repeat split; try assumption. apply distance_sym.
Qed.

End VertexOrder.

Section VertexOrderProperties.

Local Open Scope float_scope.

(** X15. The metrics do not depend on the order of the vertices in the
    array.  With distinct identifiers, the number of crossings and the
    average distance of a permuted array are those of the array; with
    finite coordinates, so is the minimum distance, repeated identifiers or
    not. *)
Theorem metrics_vertex_order (vs vs' : list point) (es : list Edge) :
  vs ≡ₚ vs' ->
  (NoDup (map id vs) ->
   calculateEdgeCrossings vs es = calculateEdgeCrossings vs' es
   /\ calculateAverageDistance vs es = calculateAverageDistance vs' es)
  /\ (Forall (fun v => is_finite (x v) = true /\ is_finite (y v) = true) vs ->
      calculateMinimumNodeDistance vs = calculateMinimumNodeDistance vs').
Proof.
  intros Hp. split.
  - intros Hnd. unfold calculateEdgeCrossings, calculateAverageDistance.
    rewrite (nodeMap_of_Permutation vs vs' Hp Hnd). split; reflexivity.
  - intros Hfin.
    assert (Hfin' : Forall (fun v => is_finite (x v) = true /\ is_finite (y v) = true) vs')
      by (rewrite <- Hp; exact Hfin).
    apply leb_antisym_nonneg; try apply calculateMinimumNodeDistance_nonneg_or_nan.
    + rewrite !minimum_loop_pairs.
      destruct (fold_min_spec (pair_distances vs) infinity eq_refl
                  (pair_distances_not_nan vs Hfin)) as (Hnan & _ & _ & Hall).
      destruct (fold_min_spec (pair_distances vs') infinity eq_refl
                  (pair_distances_not_nan vs' Hfin')) as (_ & [Hin|Hin] & _ & _).
      * rewrite Hin. apply leb_infinity, Hnan.
      * apply Hall. apply (pair_distances_Permutation vs' vs); [symmetry; exact Hp | exact Hin].
    + rewrite !minimum_loop_pairs.
      destruct (fold_min_spec (pair_distances vs') infinity eq_refl
                  (pair_distances_not_nan vs' Hfin')) as (Hnan & _ & _ & Hall).
      destruct (fold_min_spec (pair_distances vs) infinity eq_refl
                  (pair_distances_not_nan vs Hfin)) as (_ & [Hin|Hin] & _ & _).
      * rewrite Hin. apply leb_infinity, Hnan.
      * apply Hall. apply (pair_distances_Permutation vs vs'); [exact Hp | exact Hin].
Qed.

(** X15, witness: the right angle with its first two vertices exchanged. *)
Lemma metrics_vertex_order_witness :
  right_angle ≡ₚ [mkNode "B" 1 0; mkNode "A" 0 0; mkNode "C" 0 1]
  /\ calculateAverageDistance right_angle sides_and_stray
     = calculateAverageDistance [mkNode "B" 1 0; mkNode "A" 0 0; mkNode "C" 0 1]
         sides_and_stray
  /\ calculateMinimumNodeDistance right_angle
     = calculateMinimumNodeDistance [mkNode "B" 1 0; mkNode "A" 0 0; mkNode "C" 0 1].
Proof.
  assert (Hp : right_angle ≡ₚ [mkNode "B" 1 0; mkNode "A" 0 0; mkNode "C" 0 1])
    by apply perm_swap.
  assert (Hnd : NoDup (map id right_angle)).
  { apply (bool_decide_unpack _). vm_compute. reflexivity. }
  destruct (metrics_vertex_order _ _ sides_and_stray Hp) as [Hmap Hmin].
  destruct (Hmap Hnd) as [_ Havg].
  split; [exact Hp|]. split; [exact Havg|]. apply Hmin. repeat constructor.
Defined.

End VertexOrderProperties.

(** ** The crossing test without rounding *)

Section ExactCrossing.

Local Open Scope Q_scope.







(** The diagonals of the unit square cross properly, at their middle; a
    segment that ends on another one does not cross it. *)
Example exact_diagonals_cross :
  doEdgesCross_exact (mkNode "A" 0 0) (mkNode "B" 1 1) (mkNode "C" 0 1) (mkNode "D" 1 0)
  = true
  /\ doEdgesCross_exact (mkNode "A" 0 0) (mkNode "B" 1 0)
       (mkNode "C" (1 # 2) 0) (mkNode "D" (1 # 2) 1) = false.
Proof. split; reflexivity. Qed.

End ExactCrossing.

Section Rounding64.

Local Open Scope float_scope.

(** In binary64 the determinants are rounded.  The decimal points
    (0, 0.1), (0.3, 0.7) and (0.1, 0.3) are on one line; their binary64
    values are not, and on which side of the line A-B the vertex D falls
    depends on the direction in which the edge is given. *)
Example doEdgesCross_rounded_determinants :
  let tenth := JS.of_Q (1 # 10) in
  let three_tenths := JS.of_Q (3 # 10) in
  let seven_tenths := JS.of_Q (7 # 10) in
  doEdgesCross (mkNode "A" 0 tenth) (mkNode "B" three_tenths seven_tenths)
               (mkNode "C" 0 three_tenths) (mkNode "D" tenth three_tenths) = true
  /\ doEdgesCross (mkNode "B" three_tenths seven_tenths) (mkNode "A" 0 tenth)
                  (mkNode "C" 0 three_tenths) (mkNode "D" tenth three_tenths) = false.
Proof. split; vm_compute; reflexivity. Qed.

End Rounding64.
